(** * SendinBeatsAudioDriver: routing table, channel buffer bank and mix

    A shallow embedding of the audio-routing core of
    [src-tauri/driver/SendinBeatsAudioDriver.c]:

    - [MapPIDToChannel], [UnmapPID]: the table of process-to-channel mappings
      ([gMappings], [gMappingCount]);
    - [RouteAudioToChannel]: the deposit of a chunk of samples into the
      buffer of the channel a process is mapped to ([gChannelBuffers]);
    - [PlugIn_DoIOOperation]: the mix of all channel buffers into the
      output buffer of one I/O cycle.

    The global variables of the C file are the fields of the record [driver]
    and every function takes the state and gives back the value it returns
    together with the new state.  A function whose C body can read or write
    outside an array returns an [option]: [None] stands for undefined
    behaviour.  The two mutexes serialise whole function bodies, so each
    function is one atomic step of the model; the diagnostic [printf] calls
    are left out.

    [pid_t], [int] and [UInt32] values are integers ([Z], [N]) here: the
    code stores and compares them, and the only arithmetic, the increment
    of [gMappingCount], stays below [MAX_PID_MAPPINGS], so nothing wraps.
    A loop that looks for the first slot with some property is [list_find]
    over the slots it visits. *)

From stdpp Require Import base numbers option list.

Open Scope Z_scope.

(** ** Constants of the C file *)

Definition MAX_CHANNELS : Z := 16.
Definition MAX_PID_MAPPINGS : Z := 64.
Definition BUFFER_FRAMES : Z := 1024.

(** The status codes the functions of the file return. *)
Inductive OSStatus : Set :=
  | kAudioHardwareNoError
  | kAudioHardwareUnsupportedOperationError
  | kAudioHardwareBadObjectError.

(** [typedef struct { pid_t pid; int channel; int active; } PIDMapping;] *)
Record PIDMapping : Set := mkPIDMapping {
  pid : Z;
  channel : Z;
  active : Z
}.

#[global] Instance PIDMapping_eq_dec : EqDecision PIDMapping.
Proof. solve_decision. Defined.

(** The result of [Register] in the words of the specification:
    [Result<(), TableFull>]. *)
Inductive RegisterResult : Set :=
  | RegisterOk
  | TableFull.

Section Driver.

(** The samples are C [float]s.  The development is parametric in the type
    of samples, its zero (the value [memset] with 0 gives) and its addition
    (the [+=] of the mix); no law is assumed of them unless a statement
    says so. *)
Context {sample : Type} (fzero : sample) (fadd : sample → sample → sample).

Set Default Proof Using "Type".

(** The global state: [gMappings], [gMappingCount], [gChannelBuffers]. *)
Record driver : Type := mkDriver {
  gMappings : list PIDMapping;
  gMappingCount : Z;
  gChannelBuffers : list (list sample)
}.

(** Static initialisation: every global is zero. *)
Definition init : driver :=
  {| gMappings := replicate (Z.to_nat MAX_PID_MAPPINGS) (mkPIDMapping 0 0 0);
     gMappingCount := 0;
     gChannelBuffers :=
       replicate (Z.to_nat MAX_CHANNELS) (replicate (Z.to_nat BUFFER_FRAMES) fzero) |}.

(** The slots a loop [for (int i = 0; i < gMappingCount; i++)] visits. *)
Definition entries (st : driver) : list PIDMapping :=
  take (Z.to_nat (gMappingCount st)) (gMappings st).

(** [gMappings[i].channel = channel; gMappings[i].active = 1;] *)
Definition set_channel (ch : Z) (m : PIDMapping) : PIDMapping :=
  {| pid := pid m; channel := ch; active := 1 |}.

(** [gMappings[i].active = 0;] *)
Definition clear_active (m : PIDMapping) : PIDMapping :=
  {| pid := pid m; channel := channel m; active := 0 |}.

(** [MapPIDToChannel]: the first visited slot whose [pid] matches is updated
    in place (channel set, [active = 1]) and the function returns; otherwise
    a new slot is written at index [gMappingCount] when
    [gMappingCount < MAX_PID_MAPPINGS]; otherwise nothing happens.  The
    function is [void]. *)
Definition MapPIDToChannel (p ch : Z) (st : driver) : unit * driver :=
  match list_find (λ m, pid m = p) (entries st) with
  | Some (i, _) =>
      (tt, {| gMappings :=
                alter (set_channel ch) i (gMappings st);
              gMappingCount := gMappingCount st;
              gChannelBuffers := gChannelBuffers st |})
  | None =>
      if bool_decide (gMappingCount st < MAX_PID_MAPPINGS) then
        (tt, {| gMappings :=
                  <[Z.to_nat (gMappingCount st) :=
                      {| pid := p; channel := ch; active := 1 |}]> (gMappings st);
                gMappingCount := gMappingCount st + 1;
                gChannelBuffers := gChannelBuffers st |})
      else (tt, st)
  end.

(** [UnmapPID]: the first visited slot whose [pid] matches gets
    [active = 0]; the loop stops there. *)
Definition UnmapPID (p : Z) (st : driver) : unit * driver :=
  match list_find (λ m, pid m = p) (entries st) with
  | Some (i, _) =>
      (tt, {| gMappings :=
                alter clear_active i (gMappings st);
              gMappingCount := gMappingCount st;
              gChannelBuffers := gChannelBuffers st |})
  | None => (tt, st)
  end.

(** The lookup loop of [RouteAudioToChannel]: the channel of the first
    visited slot with a matching [pid] and a non-zero [active]. *)
Definition lookup_channel (p : Z) (st : driver) : option Z :=
  (λ r : nat * PIDMapping, channel r.2) <$>
    list_find (λ m, pid m = p ∧ active m ≠ 0) (entries st).

(** [memcpy(dst, src, sizeof(float) * n)] on arrays of samples.  A negative
    [n] (converted to a huge [size_t]) or an [n] larger than either array
    is undefined behaviour. *)
Definition memcpy (dst src : list sample) (n : Z) : option (list sample) :=
  if bool_decide (0 ≤ n ∧ n ≤ Z.of_nat (length src) ∧ n ≤ Z.of_nat (length dst))
  then Some (take (Z.to_nat n) src ++ drop (Z.to_nat n) dst)
  else None.

(** [RouteAudioToChannel(pid, buffer, frames)]. *)
Definition RouteAudioToChannel (p : Z) (buffer : list sample) (frames : Z)
    (st : driver) : option (unit * driver) :=
  let frames := if bool_decide (frames > BUFFER_FRAMES) then BUFFER_FRAMES else frames in
  let ch := default (-1) (lookup_channel p st) in
  if bool_decide (ch >= 0 ∧ ch < MAX_CHANNELS) then
    dst ← gChannelBuffers st !! Z.to_nat ch;
    dst' ← memcpy dst buffer frames;
    Some (tt, {| gMappings := gMappings st;
                 gMappingCount := gMappingCount st;
                 gChannelBuffers := <[Z.to_nat ch := dst']> (gChannelBuffers st) |})
  else Some (tt, st).

(** [for (int i = start; i < start + n; i++) body], threading a state
    through a body that may be undefined. *)
Fixpoint for_loop {St : Type} (body : nat → St → option St) (start n : nat) (s : St)
    : option St :=
  match n with
  | O => Some s
  | S k => s' ← body start s; for_loop body (S start) k s'
  end.

(** [memset(out, 0, sizeof(float) * n)]. *)
Definition memset0 (out : list sample) (n : nat) : option (list sample) :=
  if bool_decide (n ≤ length out)%nat
  then Some (replicate n fzero ++ drop n out)
  else None.

(** [outputBuffer[i] += gChannelBuffers[ch][i];] *)
Definition mix_frame (bufs : list (list sample)) (ch i : nat) (out : list sample)
    : option (list sample) :=
  row ← bufs !! ch;
  x ← row !! i;
  o ← out !! i;
  Some (<[i := fadd o x]> out).

(** The two nested loops of [PlugIn_DoIOOperation]. *)
Definition mix_channels (bufs : list (list sample)) (framesToCopy : nat)
    (out : list sample) : option (list sample) :=
  for_loop (λ ch out, for_loop (mix_frame bufs ch) 0 framesToCopy out)
           0 (Z.to_nat MAX_CHANNELS) out.

(** [PlugIn_DoIOOperation]: [ioMainBuffer] is [None] for a null pointer;
    the result is the status and the contents of the buffer on return.
    [inIOBufferFrameSize] is a [UInt32]. *)
Definition PlugIn_DoIOOperation (inIOBufferFrameSize : N)
    (ioMainBuffer : option (list sample)) (st : driver)
    : option (OSStatus * option (list sample)) :=
  match ioMainBuffer with
  | None => Some (kAudioHardwareNoError, None)
  | Some outputBuffer =>
      let framesToCopy :=
        if bool_decide (Z.of_N inIOBufferFrameSize < BUFFER_FRAMES)
        then Z.of_N inIOBufferFrameSize else BUFFER_FRAMES in
      out0 ← memset0 outputBuffer (Z.to_nat framesToCopy);
      out ← mix_channels (gChannelBuffers st) (Z.to_nat framesToCopy) out0;
      Some (kAudioHardwareNoError, Some out)
  end.

(** ** Operations and reachable states *)

Inductive op : Type :=
  | OpRegister (p ch : Z)
  | OpUnregister (p : Z)
  | OpDeposit (p : Z) (samples : list sample) (frame_count : Z)
  | OpProduce (frame_count : N) (output : option (list sample)).

Definition run_op (o : op) (st : driver) : option driver :=
  match o with
  | OpRegister p ch => Some (MapPIDToChannel p ch st).2
  | OpUnregister p => Some (UnmapPID p st).2
  | OpDeposit p samples n => snd <$> RouteAudioToChannel p samples n st
  | OpProduce n output => _ ← PlugIn_DoIOOperation n output st; Some st
  end.

Inductive reachable : driver → Prop :=
  | reachable_init : reachable init
  | reachable_step st o st' :
      reachable st → run_op o st = Some st' → reachable st'.

(** A run of registrations, one call of [MapPIDToChannel] per pair. *)
Definition register_all (regs : list (Z * Z)) (st : driver) : driver :=
  foldl (λ s r, (MapPIDToChannel r.1 r.2 s).2) st regs.

(** The shape the C declarations give the arrays, and the bounds of the
    slot counter. *)
Record wf (st : driver) : Prop := mkWf {
  wf_mappings : length (gMappings st) = Z.to_nat MAX_PID_MAPPINGS;
  wf_count : 0 ≤ gMappingCount st ≤ MAX_PID_MAPPINGS;
  wf_channels : length (gChannelBuffers st) = Z.to_nat MAX_CHANNELS;
  wf_frames : Forall (λ row, length row = Z.to_nat BUFFER_FRAMES) (gChannelBuffers st)
}.

(** No process has two slots among the visited ones. *)
Definition unique_pids (st : driver) : Prop := NoDup (pid <$> entries st).

(** The active slots of a process. *)
Definition active_entries (p : Z) (st : driver) : list PIDMapping :=
  filter (λ m, pid m = p ∧ active m ≠ 0) (entries st).

(** The sample of channel [ch] at frame [i]. *)
Definition sample_at (bufs : list (list sample)) (ch i : nat) : sample :=
  default fzero (bufs !! ch ≫= (.!! i)).

(** The sum, in channel order and from zero, of the samples at frame [i]. *)
Definition mix_sum (bufs : list (list sample)) (i : nat) : sample :=
  foldl (λ acc ch, fadd acc (sample_at bufs ch i)) fzero (seq 0 (Z.to_nat MAX_CHANNELS)).

(** ** Notions the statements use *)

(** A process has a slot (active or not) among the visited ones. *)
Definition has_slot (p : Z) (st : driver) : Prop :=
  is_Some (list_find (λ m, pid m = p) (entries st)).

(** The registration can take effect: the process has a slot already or
    a slot is free. *)
Definition can_register (p : Z) (st : driver) : Prop :=
  has_slot p st ∨ gMappingCount st < MAX_PID_MAPPINGS.

#[global] Instance has_slot_dec p st : Decision (has_slot p st).
Proof. unfold has_slot. apply _. Defined.

#[global] Instance can_register_dec p st : Decision (can_register p st).
Proof. unfold can_register. apply _. Defined.

(** The slot a first registration writes. *)
Definition new_mapping (r : Z * Z) : PIDMapping := mkPIDMapping r.1 r.2 1.

(** The number of frames a cycle mixes: [min(n, BUFFER_FRAMES)]. *)
Definition frames_to_copy (n : N) : nat := Z.to_nat (Z.min (Z.of_N n) BUFFER_FRAMES).

(** A chunk read at frame [i], zero beyond its end. *)
Definition padded (chunk : list sample) (i : nat) : sample := default fzero (chunk !! i).

(** Two deposits in a row. *)
Definition deposit_both (p1 : Z) (chunk1 : list sample) (p2 : Z) (chunk2 : list sample)
    (st : driver) : option (unit * driver) :=
  r ← RouteAudioToChannel p1 chunk1 (Z.of_nat (length chunk1)) st;
  RouteAudioToChannel p2 chunk2 (Z.of_nat (length chunk2)) r.2.

(** What a deposit of [chunk] leaves in a channel buffer that held [row]:
    the chunk, cut at [BUFFER_FRAMES], over the start of the row. *)
Definition stored (chunk row : list sample) : list sample :=
  take (Z.to_nat (Z.min (Z.of_nat (length chunk)) BUFFER_FRAMES)) chunk
  ++ drop (Z.to_nat (Z.min (Z.of_nat (length chunk)) BUFFER_FRAMES)) row.

(** The shape and the one-slot-per-process property are decidable. *)
#[global] Instance wf_dec (st : driver) : Decision (wf st).
Proof.
  refine (cast_if (decide
    (length (gMappings st) = Z.to_nat MAX_PID_MAPPINGS ∧
     (0 ≤ gMappingCount st ≤ MAX_PID_MAPPINGS) ∧
     length (gChannelBuffers st) = Z.to_nat MAX_CHANNELS ∧
     Forall (λ row, length row = Z.to_nat BUFFER_FRAMES) (gChannelBuffers st))));
    [by destruct a as (? & ? & ? & ?)|by intros [? ? ? ?]; destruct n].
Defined.

#[global] Instance unique_pids_dec (st : driver) : Decision (unique_pids st).
Proof. unfold unique_pids. apply _. Defined.

(** ** The plugin entry point and the client callback *)

(** What [AudioDriverPlugInOpen] returns: a null pointer or the address of
    the driver interface. *)
Inductive pointer : Set :=
  | NULL
  | gAudioServerPlugInDriverRef.

(** The UUIDs [CFEqual] compares, and the type UUID of audio server
    plugins, a constant of the CoreAudio headers. *)
Context {UUID : Type} `{EqDecision UUID} (kAudioServerPlugInTypeUUID : UUID).

(** [AudioDriverPlugInOpen]: for the plugin type UUID, [memset] of
    [gMappings] and of [gChannelBuffers] with 0; [gMappingCount] is not
    written. *)
Definition AudioDriverPlugInOpen (inRequestedTypeUUID : UUID) (st : driver)
    : pointer * driver :=
  if bool_decide (inRequestedTypeUUID ≠ kAudioServerPlugInTypeUUID) then (NULL, st)
  else
    (gAudioServerPlugInDriverRef,
     {| gMappings := replicate (Z.to_nat MAX_PID_MAPPINGS) (mkPIDMapping 0 0 0);
        gMappingCount := gMappingCount st;
        gChannelBuffers :=
          replicate (Z.to_nat MAX_CHANNELS) (replicate (Z.to_nat BUFFER_FRAMES) fzero) |}).

(** The one field of [AudioServerPlugInClientInfo] the file reads,
    [UInt32 mClientID]. *)
Record AudioServerPlugInClientInfo : Set := mkClientInfo {
  mClientID : N
}.

(** The conversion of a [UInt32] argument to the [pid_t] parameter (a
    32-bit [int]) of [UnmapPID]: the value is kept below 2^31 and wraps to
    a negative one from 2^31 up. *)
Definition pid_t_of_UInt32 (n : N) : Z :=
  let u := Z.of_N n `mod` 2 ^ 32 in
  if bool_decide (u < 2 ^ 31) then u else u - 2 ^ 32.

(** [PlugIn_RemoveDeviceClient]: [inClientInfo] is [None] for a null
    pointer; [UnmapPID(inClientInfo->mClientID)] converts the identifier. *)
Definition PlugIn_RemoveDeviceClient (inClientInfo : option AudioServerPlugInClientInfo)
    (st : driver) : OSStatus * driver :=
  match inClientInfo with
  | Some info => (kAudioHardwareNoError, (UnmapPID (pid_t_of_UInt32 (mClientID info)) st).2)
  | None => (kAudioHardwareNoError, st)
  end.

(** A run of operations; [None] when one of them is undefined. *)
Definition run_ops (os : list op) (st : driver) : option driver :=
  foldl (λ r o, r ≫= run_op o) (Some st) os.

(** A run of calls of [UnmapPID]. *)
Definition unmap_all (ps : list Z) (st : driver) : driver :=
  foldl (λ s p, (UnmapPID p s).2) st ps.

(** The flags the code writes: [active] is 0 or 1 in every slot in use. *)
Definition active_flags (st : driver) : Prop :=
  Forall (λ m, active m = 0 ∨ active m = 1) (entries st).

#[global] Instance active_flags_dec (st : driver) : Decision (active_flags st).
Proof. unfold active_flags. apply _. Defined.

(** ** Lists of mappings *)

Lemma list_find_alter_skip {A} (P : A → Prop) `{∀ x, Decision (P x)}
    (f : A → A) (l : list A) (i : nat) :
  (∀ x, l !! i = Some x → ¬ P x ∧ ¬ P (f x)) →
  list_find P (alter f i l) = list_find P l.
Proof.
  revert i. induction l as [|x l IH]; intros i Hi; [done|].
  destruct i as [|i]; simpl.
  - destruct (Hi x eq_refl) as [Hx Hfx]. by rewrite !decide_False.
  - destruct (decide (P x)); [done|]. f_equal. by apply IH.
Qed.

Lemma list_find_alter_hit {A} (P Q : A → Prop) `{∀ x, Decision (P x)}
    `{∀ x, Decision (Q x)} (f : A → A) (l : list A) (i : nat) (x : A) :
  list_find P l = Some (i, x) →
  (∀ y, Q y → P y) →
  Q (f x) →
  list_find Q (alter f i l) = Some (i, f x).
Proof.
  intros (Hl & HP & Hleast)%list_find_Some HQP HQ.
  apply list_find_Some. split_and!.
  - by rewrite list_lookup_alter_eq, Hl.
  - done.
  - intros j y Hj Hlt. rewrite list_lookup_alter_ne in Hj by lia.
    intros Hy%HQP. by eapply Hleast.
Qed.

Lemma list_find_snoc_hit {A} (P Q : A → Prop) `{∀ x, Decision (P x)}
    `{∀ x, Decision (Q x)} (l : list A) (x : A) :
  list_find P l = None →
  (∀ y, Q y → P y) →
  Q x →
  list_find Q (l ++ [x]) = Some (length l, x).
Proof.
  intros HN HQP HQ.
  rewrite list_find_app_r.
  - simpl. by rewrite decide_True.
  - apply list_find_None. apply list_find_None in HN.
    eapply Forall_impl; [exact HN|]. intros y Hy HQy. by apply Hy, HQP.
Qed.

Lemma list_find_snoc_skip {A} (P : A → Prop) `{∀ x, Decision (P x)}
    (l : list A) (x : A) :
  ¬ P x → list_find P (l ++ [x]) = list_find P l.
Proof.
  intros HP. destruct (list_find P l) as [[i y]|] eqn:E.
  - by apply list_find_app_l.
  - rewrite list_find_app_r by done. simpl. by rewrite decide_False.
Qed.

Lemma pids_alter (f : PIDMapping → PIDMapping) (l : list PIDMapping) (i : nat) :
  (∀ m, pid (f m) = pid m) → pid <$> alter f i l = pid <$> l.
Proof.
  intros Hf. revert i.
  induction l as [|x l IH]; intros [|i]; simpl; [done..| |].
  - by rewrite Hf.
  - f_equal. apply IH.
Qed.

Lemma filter_none {A} (P : A → Prop) `{∀ x, Decision (P x)} (l : list A) :
  (∀ x, x ∈ l → ¬ P x) → filter P l = [].
Proof.
  induction l as [|x l IH]; intros Hl; [done|].
  rewrite filter_cons_False by (apply Hl; left).
  apply IH. intros y Hy. apply Hl. by right.
Qed.

Lemma filter_unique_pid (Q : PIDMapping → Prop) `{∀ m, Decision (Q m)}
    (l : list PIDMapping) (i : nat) (m : PIDMapping) :
  NoDup (pid <$> l) →
  l !! i = Some m →
  filter (λ x, pid x = pid m ∧ Q x) l = if decide (Q m) then [m] else [].
Proof.
  revert i. induction l as [|x l IH]; intros i Hnd Hi; [done|].
  rewrite fmap_cons in Hnd. apply NoDup_cons in Hnd as [Hx Hnd].
  assert (Hrest : ∀ y, y ∈ l → pid y ≠ pid x).
  { intros y Hy Heq. apply Hx. rewrite <- Heq. by apply list_elem_of_fmap_2. }
  destruct i as [|i]; simplify_eq/=.
  - rewrite filter_cons.
    assert (filter (λ x, pid x = pid m ∧ Q x) l = []) as ->.
    { apply filter_none. intros y Hy [Hp _]. by eapply Hrest. }
    destruct (decide (Q m)).
    + by rewrite decide_True.
    + rewrite decide_False; [done|by intros [_ ?]].
  - rewrite filter_cons_False.
    + by eapply IH.
    + intros [Hp _]. eapply Hrest; [|symmetry; exact Hp].
      by eapply list_elem_of_lookup_2.
Qed.

(** ** The routing table seen through its visited slots *)

Lemma entries_length st :
  wf st → length (entries st) = Z.to_nat (gMappingCount st).
Proof.
  intros [Hm Hc _ _]. unfold entries. rewrite length_take, Hm.
  unfold MAX_PID_MAPPINGS in *. lia.
Qed.

Lemma MapPIDToChannel_entries p ch st :
  wf st →
  entries (MapPIDToChannel p ch st).2 =
    match list_find (λ m, pid m = p) (entries st) with
    | Some (i, _) => alter (set_channel ch) i (entries st)
    | None =>
        if bool_decide (gMappingCount st < MAX_PID_MAPPINGS)
        then entries st ++ [mkPIDMapping p ch 1]
        else entries st
    end.
Proof.
  intros Hwf. pose proof (entries_length st Hwf) as Hlen.
  destruct Hwf as [Hm Hc _ _]. unfold MapPIDToChannel.
  destruct (list_find _ (entries st)) as [[i m]|] eqn:Hfind.
  - apply list_find_Some in Hfind as (Hi%lookup_lt_Some & _).
    unfold entries in *; simpl. rewrite take_alter_lt; [done|lia].
  - case_bool_decide as Hroom; [|done].
    unfold entries; simpl.
    replace (Z.to_nat (gMappingCount st + 1)) with (S (Z.to_nat (gMappingCount st))) by lia.
    erewrite take_S_r.
    + by rewrite take_insert_ge by lia.
    + apply list_lookup_insert_eq. unfold MAX_PID_MAPPINGS in *. lia.
Qed.

Lemma UnmapPID_entries p st :
  entries (UnmapPID p st).2 =
    match list_find (λ m, pid m = p) (entries st) with
    | Some (i, _) => alter clear_active i (entries st)
    | None => entries st
    end.
Proof.
  unfold UnmapPID.
  destruct (list_find _ (entries st)) as [[i m]|] eqn:Hfind; [|done].
  apply list_find_Some in Hfind as (Hi%lookup_lt_Some & _).
  unfold entries in *; simpl. rewrite length_take in Hi.
  rewrite take_alter_lt; [done|lia].
Qed.

Lemma MapPIDToChannel_buffers p ch st :
  gChannelBuffers (MapPIDToChannel p ch st).2 = gChannelBuffers st.
Proof.
  unfold MapPIDToChannel. destruct (list_find _ _) as [[i m]|]; [done|].
  by case_bool_decide.
Qed.

Lemma UnmapPID_buffers p st :
  gChannelBuffers (UnmapPID p st).2 = gChannelBuffers st.
Proof. unfold UnmapPID. by destruct (list_find _ _) as [[i m]|]. Qed.

Lemma MapPIDToChannel_wf p ch st : wf st → wf (MapPIDToChannel p ch st).2.
Proof.
  intros [Hm Hc Hch Hfr]. unfold MapPIDToChannel.
  destruct (list_find _ _) as [[i m]|].
  - split; simpl; [by rewrite length_alter|done..].
  - case_bool_decide; [|done].
    split; simpl; [by rewrite length_insert|lia|done..].
Qed.

Lemma UnmapPID_wf p st : wf st → wf (UnmapPID p st).2.
Proof.
  intros [Hm Hc Hch Hfr]. unfold UnmapPID.
  destruct (list_find _ _) as [[i m]|]; [|done].
  split; simpl; [by rewrite length_alter|done..].
Qed.

Lemma init_wf : wf init.
Proof.
  split; unfold init; cbn [gMappings gMappingCount gChannelBuffers].
  - by rewrite length_replicate.
  - done.
  - by rewrite length_replicate.
  - apply Forall_replicate. by rewrite length_replicate.
Qed.

Lemma init_entries : entries init = [].
Proof. reflexivity. Qed.

Lemma has_slot_elem p st : has_slot p st ↔ p ∈ pid <$> entries st.
Proof.
  unfold has_slot. split.
  - intros [[i m] (Hi & Hp & _)%list_find_Some].
    rewrite <- Hp. by eapply list_elem_of_fmap_2, list_elem_of_lookup_2.
  - intros (m & -> & Hm)%list_elem_of_fmap. by eapply list_find_elem_of.
Qed.

Lemma lookup_channel_MapPIDToChannel p ch st :
  wf st → can_register p st →
  lookup_channel p (MapPIDToChannel p ch st).2 = Some ch.
Proof.
  intros Hwf Hcan. unfold lookup_channel.
  rewrite MapPIDToChannel_entries by done.
  destruct (list_find (λ m, pid m = p) (entries st)) as [[i m]|] eqn:Hfind.
  - erewrite (list_find_alter_hit (λ m, pid m = p)); [done|exact Hfind| |].
    + by intros y [? _].
    + apply list_find_Some in Hfind as (_ & Hp & _). by split.
  - destruct Hcan as [[? Hs]|Hroom].
    { unfold has_slot in Hs. by rewrite Hfind in Hs. }
    rewrite bool_decide_eq_true_2 by done.
    erewrite (list_find_snoc_hit (λ m, pid m = p)); [done|exact Hfind| |].
    + by intros y [? _].
    + by split.
Qed.

Lemma lookup_channel_MapPIDToChannel_ne p q ch st :
  wf st → q ≠ p →
  lookup_channel q (MapPIDToChannel p ch st).2 = lookup_channel q st.
Proof.
  intros Hwf Hne. unfold lookup_channel.
  rewrite MapPIDToChannel_entries by done.
  destruct (list_find (λ m, pid m = p) (entries st)) as [[i m]|] eqn:Hfind.
  - rewrite list_find_alter_skip; [done|].
    apply list_find_Some in Hfind as (Hi & Hp & _).
    intros x Hx. assert (x = m) as -> by congruence.
    split; intros [Hq _]; simpl in Hq; congruence.
  - case_bool_decide; [|done].
    rewrite list_find_snoc_skip; [done|]. intros [Hq _]; simpl in Hq; congruence.
Qed.

Lemma MapPIDToChannel_full p ch st :
  ¬ can_register p st → MapPIDToChannel p ch st = (tt, st).
Proof.
  intros Hcan. unfold MapPIDToChannel.
  destruct (list_find _ _) as [[i m]|] eqn:Hfind.
  - destruct Hcan. left. unfold has_slot. by rewrite Hfind.
  - rewrite bool_decide_eq_false_2; [done|]. intros ?. destruct Hcan. by right.
Qed.

Lemma lookup_channel_no_slot p st : ¬ has_slot p st → lookup_channel p st = None.
Proof.
  intros Hs. unfold lookup_channel.
  destruct (list_find (λ m, pid m = p ∧ _) _) as [[i m]|] eqn:Hfind; [|done].
  destruct Hs. apply list_find_Some in Hfind as (Hi & [Hp _] & _).
  eapply list_find_elem_of; [by eapply list_elem_of_lookup_2|done].
Qed.

Lemma MapPIDToChannel_pids p ch st :
  wf st →
  pid <$> entries (MapPIDToChannel p ch st).2 =
    if decide (can_register p st ∧ ¬ has_slot p st)
    then (pid <$> entries st) ++ [p]
    else pid <$> entries st.
Proof.
  intros Hwf. rewrite MapPIDToChannel_entries by done.
  destruct (list_find _ _) as [[i m]|] eqn:Hfind.
  - rewrite pids_alter by done.
    rewrite decide_False; [done|]. intros [_ []].
    unfold has_slot. by rewrite Hfind.
  - assert (¬ has_slot p st) as Hs.
    { unfold has_slot. rewrite Hfind. by intros [? ?]. }
    case_bool_decide as Hroom.
    + rewrite decide_True, fmap_app; [done|]. split; [by right|done].
    + rewrite decide_False; [done|]. by intros [[?|?] _].
Qed.

Lemma MapPIDToChannel_unique p ch st :
  wf st → unique_pids st → unique_pids (MapPIDToChannel p ch st).2.
Proof.
  intros Hwf Hu. unfold unique_pids in *.
  rewrite MapPIDToChannel_pids by done.
  case_decide as Hd; [|done]. destruct Hd as [_ Hs].
  apply NoDup_app. split_and!; [done| |apply NoDup_singleton].
  intros q Hq ->%list_elem_of_singleton. by apply Hs, has_slot_elem.
Qed.

Lemma UnmapPID_pids p st : pid <$> entries (UnmapPID p st).2 = pid <$> entries st.
Proof.
  rewrite UnmapPID_entries.
  destruct (list_find _ _) as [[i m]|]; [|done]. by rewrite pids_alter.
Qed.

Lemma UnmapPID_unique p st : unique_pids st → unique_pids (UnmapPID p st).2.
Proof. unfold unique_pids. by rewrite UnmapPID_pids. Qed.

(** ** Runs of registrations from the initial state *)

Lemma register_all_snoc regs r st :
  register_all (regs ++ [r]) st = (MapPIDToChannel r.1 r.2 (register_all regs st)).2.
Proof. unfold register_all. by rewrite foldl_snoc. Qed.

Lemma register_all_wf regs st : wf st → wf (register_all regs st).
Proof.
  intros Hwf. induction regs as [|r regs IH] using rev_ind; [done|].
  rewrite register_all_snoc. by apply MapPIDToChannel_wf.
Qed.

Lemma register_all_init regs :
  NoDup regs.*1 →
  (length regs ≤ Z.to_nat MAX_PID_MAPPINGS)%nat →
  entries (register_all regs init) = new_mapping <$> regs.
Proof.
  induction regs as [|r regs IH] using rev_ind; intros Hnd Hlen; [done|].
  rewrite fmap_app in Hnd. apply NoDup_app in Hnd as (Hnd & Hfresh & _).
  rewrite length_app in Hlen. simpl in Hlen.
  specialize (IH Hnd ltac:(lia)).
  pose proof (register_all_wf regs init init_wf) as Hwf.
  pose proof (entries_length _ Hwf) as Hcount.
  rewrite IH, length_fmap in Hcount.
  rewrite register_all_snoc, MapPIDToChannel_entries by done.
  rewrite IH, fmap_app.
  assert (list_find (λ m, pid m = r.1) (new_mapping <$> regs) = None) as ->.
  { apply list_find_None, Forall_fmap, Forall_forall. intros x Hx Hp.
    simpl in Hp. apply (Hfresh x.1); [by apply list_elem_of_fmap_2|].
    rewrite Hp. simpl. left. }
  rewrite bool_decide_eq_true_2; [done|].
  destruct Hwf as [_ Hc _ _]. unfold MAX_PID_MAPPINGS in *. lia.
Qed.

Lemma register_all_count regs :
  NoDup regs.*1 →
  (length regs ≤ Z.to_nat MAX_PID_MAPPINGS)%nat →
  gMappingCount (register_all regs init) = Z.of_nat (length regs).
Proof.
  intros Hnd Hlen.
  pose proof (register_all_wf regs init init_wf) as Hwf.
  pose proof (entries_length _ Hwf) as Hcount.
  rewrite register_all_init, length_fmap in Hcount by done.
  destruct Hwf as [_ Hc _ _]. lia.
Qed.

Lemma lookup_channel_new_mappings regs st k q ch :
  entries st = new_mapping <$> regs →
  NoDup regs.*1 →
  regs !! k = Some (q, ch) →
  lookup_channel q st = Some ch.
Proof.
  intros Hent Hnd Hk. unfold lookup_channel. rewrite Hent.
  assert (list_find (λ m, pid m = q ∧ active m ≠ 0) (new_mapping <$> regs)
          = Some (k, new_mapping (q, ch))) as ->; [|done].
  apply list_find_Some. split; [|split].
  - by rewrite list_lookup_fmap, Hk.
  - done.
  - intros j y Hj Hlt [Hp _].
    apply list_lookup_fmap_Some in Hj as ([q' ch'] & -> & Hj). simpl in Hp. subst q'.
    assert (j = k); [|lia].
    eapply (NoDup_lookup _ _ _ q Hnd); rewrite list_lookup_fmap.
    + by rewrite Hj.
    + by rewrite Hk.
Qed.

Lemma has_slot_lookup_channel p ch st : lookup_channel p st = Some ch → has_slot p st.
Proof.
  intros Hl. destruct (decide (has_slot p st)) as [|Hn]; [done|].
  by rewrite lookup_channel_no_slot in Hl.
Qed.

Lemma active_entries_MapPIDToChannel p ch st :
  wf st → unique_pids st → can_register p st →
  active_entries p (MapPIDToChannel p ch st).2 = [mkPIDMapping p ch 1].
Proof.
  intros Hwf Hu Hcan.
  pose proof (MapPIDToChannel_unique p ch st Hwf Hu) as Hu'.
  unfold active_entries, unique_pids in *.
  assert (∃ i, entries (MapPIDToChannel p ch st).2 !! i = Some (mkPIDMapping p ch 1))
    as [i Hi].
  { rewrite MapPIDToChannel_entries by done.
    destruct (list_find _ (entries st)) as [[i m]|] eqn:Hfind.
    - apply list_find_Some in Hfind as (Hi & Hp & _).
      exists i. rewrite list_lookup_alter_eq, Hi. simpl.
      unfold set_channel. by rewrite Hp.
    - destruct Hcan as [[? Hs]|Hroom].
      { unfold has_slot in Hs. by rewrite Hfind in Hs. }
      rewrite bool_decide_eq_true_2 by done.
      exists (length (entries st)). by rewrite list_lookup_middle. }
  by rewrite (filter_unique_pid (λ m, active m ≠ 0) _ i (mkPIDMapping p ch 1)).
Qed.

Lemma active_entries_unique p st :
  unique_pids st → (length (active_entries p st) ≤ 1)%nat.
Proof.
  intros Hu. unfold active_entries, unique_pids in *.
  destruct (decide (has_slot p st)) as [[[i m] Hs]|Hn].
  - apply list_find_Some in Hs as (Hi & <- & _).
    rewrite (filter_unique_pid (λ m, active m ≠ 0) _ i m) by done.
    case_decide; simpl; lia.
  - rewrite filter_none; [simpl; lia|].
    intros m Hm [Hp _]. apply Hn, has_slot_elem.
    rewrite <- Hp. by apply list_elem_of_fmap_2.
Qed.

(** ** Deposits keep the table and the shape of the buffer bank *)

Lemma memcpy_length dst src n dst' :
  memcpy dst src n = Some dst' → length dst' = length dst.
Proof.
  unfold memcpy. case_bool_decide as Hn; [|done]. intros [= <-].
  rewrite length_app, length_take, length_drop. lia.
Qed.

Lemma RouteAudioToChannel_table p buffer frames st st' :
  RouteAudioToChannel p buffer frames st = Some (tt, st') →
  gMappings st' = gMappings st ∧ gMappingCount st' = gMappingCount st.
Proof.
  unfold RouteAudioToChannel. case_bool_decide; [|by intros [= <-]].
  destruct (gChannelBuffers st !! _) as [dst|]; [|done]. simpl.
  destruct (memcpy _ _ _) as [dst'|]; [|done]. simpl. by intros [= <-].
Qed.

Lemma RouteAudioToChannel_entries p buffer frames st st' :
  RouteAudioToChannel p buffer frames st = Some (tt, st') → entries st' = entries st.
Proof.
  intros [Hm Hc]%RouteAudioToChannel_table. unfold entries. by rewrite Hm, Hc.
Qed.

Lemma RouteAudioToChannel_wf p buffer frames st st' :
  wf st → RouteAudioToChannel p buffer frames st = Some (tt, st') → wf st'.
Proof.
  intros [Hm Hc Hch Hfr]. unfold RouteAudioToChannel.
  case_bool_decide; [|by intros [= <-]].
  destruct (gChannelBuffers st !! _) as [dst|] eqn:Hdst; [|done]. simpl.
  destruct (memcpy _ _ _) as [dst'|] eqn:Hcpy; [|done]. simpl. intros [= <-].
  split; simpl; [done|done|by rewrite length_insert|].
  apply Forall_insert; [done|].
  rewrite (memcpy_length _ _ _ _ Hcpy). by eapply (Forall_lookup_1 _ _ _ _ Hfr).
Qed.

(** ** The invariant of the reachable states *)

Lemma run_op_inv o st st' :
  run_op o st = Some st' → wf st ∧ unique_pids st → wf st' ∧ unique_pids st'.
Proof.
  intros Hrun [Hwf Hu]. destruct o as [p ch|p|p samples n|n output]; simpl in Hrun.
  - injection Hrun as <-.
    split; [by apply MapPIDToChannel_wf|by apply MapPIDToChannel_unique].
  - injection Hrun as <-.
    split; [by apply UnmapPID_wf|by apply UnmapPID_unique].
  - destruct (RouteAudioToChannel p samples n st) as [[[] st'']|] eqn:Hroute; [|done].
    injection Hrun as <-. split.
    + by eapply RouteAudioToChannel_wf.
    + unfold unique_pids. by erewrite RouteAudioToChannel_entries.
  - destruct (PlugIn_DoIOOperation n output st); [|done]. by injection Hrun as <-.
Qed.

Lemma reachable_inv st : reachable st → wf st ∧ unique_pids st.
Proof.
  induction 1 as [|st o st' _ IH Hrun].
  - split; [apply init_wf|]. unfold unique_pids. rewrite init_entries. constructor.
  - by eapply run_op_inv.
Qed.

(** ** The mix loops *)

Lemma sample_at_lookup bufs ch i row x :
  bufs !! ch = Some row → row !! i = Some x → sample_at bufs ch i = x.
Proof. intros Hrow Hx. unfold sample_at. rewrite Hrow. simpl. by rewrite Hx. Qed.

Lemma for_loop_S {St} (body : nat → St → option St) start n s :
  for_loop body start (S n) s = body start s ≫= for_loop body (S start) n.
Proof. reflexivity. Qed.

Lemma mix_frame_Some bufs ch i out row x o :
  bufs !! ch = Some row → row !! i = Some x → out !! i = Some o →
  mix_frame bufs ch i out = Some (<[i := fadd o x]> out).
Proof. intros Hrow Hx Ho. unfold mix_frame. by simplify_option_eq. Qed.

Lemma for_loop_mix_frame bufs ch row n :
  bufs !! ch = Some row →
  ∀ start out,
    (start + n ≤ length out)%nat → (start + n ≤ length row)%nat →
    ∃ out',
      for_loop (mix_frame bufs ch) start n out = Some out' ∧
      length out' = length out ∧
      ∀ j o, out !! j = Some o →
        out' !! j = Some (if decide (start ≤ j < start + n)%nat
                          then fadd o (sample_at bufs ch j) else o).
Proof.
  intros Hrow. induction n as [|n IH]; intros start out Hout Hlen.
  - exists out. split_and!; [done..|]. intros j o Hj.
    rewrite decide_False by lia. done.
  - destruct (lookup_lt_is_Some_2 out start) as [o0 Ho0]; [lia|].
    destruct (lookup_lt_is_Some_2 row start) as [x0 Hx0]; [lia|].
    destruct (IH (S start) (<[start := fadd o0 x0]> out)) as (out' & Hloop & Hl & Hget).
    { rewrite length_insert. lia. }
    { lia. }
    exists out'. split_and!.
    + rewrite for_loop_S, (mix_frame_Some _ _ _ _ _ _ _ Hrow Hx0 Ho0). exact Hloop.
    + by rewrite Hl, length_insert.
    + intros j o Hj. destruct (decide (j = start)) as [->|Hne].
      * rewrite (Hget start (fadd o0 x0)).
        -- rewrite decide_False by lia. rewrite decide_True by lia.
           rewrite (sample_at_lookup _ _ _ _ _ Hrow Hx0). congruence.
        -- apply list_lookup_insert_eq. lia.
      * rewrite (Hget j o) by (by rewrite list_lookup_insert_ne).
        f_equal. repeat case_decide; try done; lia.
Qed.

Lemma for_loop_mix_channels bufs frames k :
  Forall (λ row, (frames ≤ length row)%nat) bufs →
  ∀ c0 out,
    (c0 + k ≤ length bufs)%nat → (frames ≤ length out)%nat →
    ∃ out',
      for_loop (λ ch out, for_loop (mix_frame bufs ch) 0 frames out) c0 k out = Some out' ∧
      length out' = length out ∧
      ∀ j o, out !! j = Some o →
        out' !! j = Some (if decide (j < frames)%nat
                          then foldl (λ acc ch, fadd acc (sample_at bufs ch j)) o (seq c0 k)
                          else o).
Proof.
  intros Hrows. induction k as [|k IH]; intros c0 out Hc Hout.
  - exists out. split_and!; [done..|]. intros j o Hj. by case_decide.
  - destruct (lookup_lt_is_Some_2 bufs c0) as [row Hrow]; [lia|].
    destruct (for_loop_mix_frame bufs c0 row frames Hrow 0 out) as (out1 & Hin & Hl1 & Hget1).
    { lia. }
    { simpl. by eapply (Forall_lookup_1 _ _ _ _ Hrows). }
    destruct (IH (S c0) out1) as (out' & Hloop & Hl & Hget); [lia..|].
    exists out'. split_and!.
    + rewrite for_loop_S, Hin. exact Hloop.
    + congruence.
    + intros j o Hj. rewrite (Hget j _ (Hget1 j o Hj)).
      f_equal. repeat case_decide; try done; lia.
Qed.

Lemma PlugIn_DoIOOperation_buffer n out st :
  wf st →
  (frames_to_copy n ≤ length out)%nat →
  ∃ out',
    PlugIn_DoIOOperation n (Some out) st = Some (kAudioHardwareNoError, Some out') ∧
    length out' = length out ∧
    (∀ i, (i < frames_to_copy n)%nat → out' !! i = Some (mix_sum (gChannelBuffers st) i)) ∧
    (∀ i, (frames_to_copy n ≤ i)%nat → out' !! i = out !! i).
Proof.
  intros [_ _ Hch Hfr] Hout. unfold PlugIn_DoIOOperation.
  assert (Z.to_nat (if bool_decide (Z.of_N n < BUFFER_FRAMES)
                    then Z.of_N n else BUFFER_FRAMES) = frames_to_copy n) as ->.
  { unfold frames_to_copy. case_bool_decide; f_equal; lia. }
  assert (frames_to_copy n ≤ Z.to_nat BUFFER_FRAMES)%nat as Hle.
  { unfold frames_to_copy. lia. }
  set (f := frames_to_copy n) in *.
  unfold memset0. rewrite bool_decide_eq_true_2 by done.
  set (out0 := replicate f fzero ++ drop f out).
  assert (length out0 = length out) as Hl0.
  { unfold out0. rewrite length_app, length_replicate, length_drop. lia. }
  destruct (for_loop_mix_channels (gChannelBuffers st) f (Z.to_nat MAX_CHANNELS))
    with (c0 := 0%nat) (out := out0) as (out' & Hloop & Hl & Hget).
  { eapply Forall_impl; [exact Hfr|]. simpl. intros row ->. done. }
  { rewrite Hch. lia. }
  { lia. }
  exists out'. unfold mix_channels. cbn [mbind option_bind]. rewrite Hloop.
  split_and!; [done|congruence| |].
  - intros i Hi. rewrite (Hget i fzero).
    + by rewrite decide_True.
    + unfold out0. rewrite lookup_app_l by (rewrite length_replicate; lia).
      by apply lookup_replicate_2.
  - intros i Hi.
    assert (out0 !! i = out !! i) as H0.
    { unfold out0. rewrite lookup_app_r by (rewrite length_replicate; lia).
      rewrite length_replicate, lookup_drop. f_equal. lia. }
    destruct (out !! i) as [o|] eqn:Ho.
    + rewrite (Hget i o H0). by rewrite decide_False by lia.
    + apply lookup_ge_None. apply lookup_ge_None in Ho. lia.
Qed.

Lemma PlugIn_DoIOOperation_null n st :
  PlugIn_DoIOOperation n None st = Some (kAudioHardwareNoError, None).
Proof. reflexivity. Qed.

(** ** Deposits *)

Lemma lookup_channel_active_entries p st :
  lookup_channel p st = None ↔ active_entries p st = [].
Proof.
  unfold lookup_channel, active_entries. rewrite fmap_None, list_find_None. split.
  - intros HF. apply filter_none. intros m Hm. by eapply Forall_forall in HF.
  - intros Hnil. apply Forall_forall. intros m Hm HP.
    by apply (filter_nil_not_elem_of _ _ m Hnil HP).
Qed.

Lemma RouteAudioToChannel_dropped p samples n st :
  ¬ (∃ c, lookup_channel p st = Some c ∧ 0 ≤ c < MAX_CHANNELS) →
  RouteAudioToChannel p samples n st = Some (tt, st).
Proof.
  intros Hno. unfold RouteAudioToChannel.
  rewrite bool_decide_eq_false_2; [done|].
  intros [Hge Hlt]. apply Hno.
  destruct (lookup_channel p st) as [c|]; simpl in *; [|lia].
  exists c. split; [done|lia].
Qed.

Lemma RouteAudioToChannel_mapped p samples n st c :
  wf st →
  lookup_channel p st = Some c →
  0 ≤ c < MAX_CHANNELS →
  0 ≤ n →
  Z.min n BUFFER_FRAMES ≤ Z.of_nat (length samples) →
  ∃ row,
    gChannelBuffers st !! Z.to_nat c = Some row ∧
    RouteAudioToChannel p samples n st =
      Some (tt, {| gMappings := gMappings st;
                   gMappingCount := gMappingCount st;
                   gChannelBuffers :=
                     <[Z.to_nat c := take (Z.to_nat (Z.min n BUFFER_FRAMES)) samples
                                     ++ drop (Z.to_nat (Z.min n BUFFER_FRAMES)) row]>
                       (gChannelBuffers st) |}).
Proof.
  intros [_ _ Hch Hfr] Hc Hrange Hn Hlen.
  destruct (lookup_lt_is_Some_2 (gChannelBuffers st) (Z.to_nat c)) as [row Hrow].
  { rewrite Hch. lia. }
  exists row. split; [done|].
  pose proof (Forall_lookup_1 _ _ _ _ Hfr Hrow) as Hrl. simpl in Hrl.
  unfold RouteAudioToChannel. rewrite Hc. cbn [default from_option id].
  rewrite bool_decide_eq_true_2 by lia.
  rewrite Hrow. cbn [mbind option_bind].
  assert ((if bool_decide (n > BUFFER_FRAMES) then BUFFER_FRAMES else n)
          = Z.min n BUFFER_FRAMES) as -> by (case_bool_decide; lia).
  unfold memcpy. rewrite bool_decide_eq_true_2; [done|].
  rewrite Hrl. unfold BUFFER_FRAMES in *. lia.
Qed.

(** ** Capacity of the table *)

(** C1 (as the code has it): from the initial state, for every run of
    MAX_PID_MAPPINGS + 1 registrations of pairwise distinct processes, each
    of the first MAX_PID_MAPPINGS calls routes its process (a lookup right
    after the call, and after the whole run, gives the registered channel);
    the last call returns nothing ([MapPIDToChannel] is void), leaves the
    state as it was, and a lookup of its process finds nothing. *)
Theorem MapPIDToChannel_capacity (regs : list (Z * Z)) :
  NoDup regs.*1 →
  length regs = S (Z.to_nat MAX_PID_MAPPINGS) →
  (∀ k q ch, (k < Z.to_nat MAX_PID_MAPPINGS)%nat → regs !! k = Some (q, ch) →
     lookup_channel q (register_all (take (S k) regs) init) = Some ch ∧
     lookup_channel q (register_all regs init) = Some ch) ∧
  (∀ q ch, regs !! Z.to_nat MAX_PID_MAPPINGS = Some (q, ch) →
     let st := register_all (take (Z.to_nat MAX_PID_MAPPINGS) regs) init in
     MapPIDToChannel q ch st = (tt, st) ∧
     register_all regs init = st ∧
     lookup_channel q st = None).
Proof.
  intros Hnd Hlen.
  assert (Hpre : ∀ k, (k ≤ Z.to_nat MAX_PID_MAPPINGS)%nat →
            NoDup (take k regs).*1 ∧ (length (take k regs) ≤ Z.to_nat MAX_PID_MAPPINGS)%nat).
  { intros k Hk. split.
    - rewrite fmap_take. exact (sublist_NoDup _ _ Hnd (sublist_take _ _)).
    - rewrite length_take. lia. }
  assert (Hlast : ∀ q ch, regs !! Z.to_nat MAX_PID_MAPPINGS = Some (q, ch) →
            let st := register_all (take (Z.to_nat MAX_PID_MAPPINGS) regs) init in
            MapPIDToChannel q ch st = (tt, st) ∧ register_all regs init = st ∧
            lookup_channel q st = None).
  { intros q ch Hq st.
    destruct (Hpre (Z.to_nat MAX_PID_MAPPINGS)) as [Hnd' Hlen']; [lia|].
    assert (¬ has_slot q st) as Hns.
    { rewrite has_slot_elem. unfold st. rewrite register_all_init by done.
      rewrite <- list_fmap_compose.
      intros ([q' ch'] & Heq & Hin)%list_elem_of_fmap. simpl in Heq. subst q'.
      apply list_elem_of_lookup in Hin as [j Hj].
      apply lookup_take_Some in Hj as [Hj Hlt].
      assert (j = Z.to_nat MAX_PID_MAPPINGS); [|lia].
      eapply (NoDup_lookup _ _ _ q Hnd); rewrite list_lookup_fmap.
      - by rewrite Hj.
      - by rewrite Hq. }
    assert (MapPIDToChannel q ch st = (tt, st)) as Hfull.
    { apply MapPIDToChannel_full. intros [?|Hroom]; [done|].
      unfold st in Hroom. rewrite register_all_count in Hroom by done.
      rewrite length_take in Hroom. lia. }
    split_and!; [done| |by apply lookup_channel_no_slot].
    rewrite <- (take_drop (Z.to_nat MAX_PID_MAPPINGS) regs) at 1.
    assert (drop (Z.to_nat MAX_PID_MAPPINGS) regs = [(q, ch)]) as ->.
    { apply list_eq. intros [|i]; rewrite lookup_drop.
      - by rewrite Nat.add_0_r.
      - transitivity (@None (Z * Z)); [apply lookup_ge_None; lia|done]. }
    rewrite register_all_snoc. simpl. fold st. by rewrite Hfull. }
  split; [|exact Hlast].
  intros k q ch Hk Hq.
  assert (∀ j, (k < j ≤ Z.to_nat MAX_PID_MAPPINGS)%nat →
            lookup_channel q (register_all (take j regs) init) = Some ch) as Hj.
  { intros j Hj. destruct (Hpre j) as [Hnd' Hlen']; [lia|].
    eapply (lookup_channel_new_mappings (take j regs) _ k).
    - by apply register_all_init.
    - done.
    - rewrite lookup_take_lt by lia. done. }
  split; [apply Hj; lia|].
  destruct (lookup_lt_is_Some_2 regs (Z.to_nat MAX_PID_MAPPINGS)) as [[q' ch'] Hq']; [lia|].
  destruct (Hlast q' ch' Hq') as (_ & -> & _). apply Hj. lia.
Qed.

(** ** The mix of one cycle *)

(** C2: for every state of the buffer bank and every requested frame count
    n, the I/O operation returns [kAudioHardwareNoError] (with a null buffer
    too), and for every i < min(n, BUFFER_FRAMES) the output sample at i is
    the sum, taken from zero in channel order with the sample addition and
    no clipping, of the samples at i of all MAX_CHANNELS channel buffers;
    the output buffer is as long as before and unchanged from
    min(n, BUFFER_FRAMES) on. *)
Theorem PlugIn_DoIOOperation_mix (n : N) (out : list sample) (st : driver) :
  wf st →
  (frames_to_copy n ≤ length out)%nat →
  PlugIn_DoIOOperation n None st = Some (kAudioHardwareNoError, None) ∧
  ∃ out',
    PlugIn_DoIOOperation n (Some out) st = Some (kAudioHardwareNoError, Some out') ∧
    length out' = length out ∧
    (∀ i, (i < frames_to_copy n)%nat →
       out' !! i =
         Some (foldl (λ acc ch, fadd acc (sample_at (gChannelBuffers st) ch i))
                     fzero (seq 0 (Z.to_nat MAX_CHANNELS)))) ∧
    (∀ i, (frames_to_copy n ≤ i)%nat → out' !! i = out !! i).
Proof.
  intros Hwf Hout. split; [reflexivity|].
  exact (PlugIn_DoIOOperation_buffer n out st Hwf Hout).
Qed.

(** ** Deposits into a mapped channel *)

(** C3 (as the code has it): after a deposit of a chunk of length
    n < BUFFER_FRAMES by a process mapped to an in-range channel, the first
    n samples of the channel's buffer are the chunk and every sample from n
    to BUFFER_FRAMES is what the buffer held there before the deposit; the
    other channels are untouched. *)
Theorem RouteAudioToChannel_short_chunk (p c : Z) (chunk : list sample) (st : driver) :
  wf st →
  lookup_channel p st = Some c →
  0 ≤ c < MAX_CHANNELS →
  Z.of_nat (length chunk) < BUFFER_FRAMES →
  ∃ row st',
    gChannelBuffers st !! Z.to_nat c = Some row ∧
    RouteAudioToChannel p chunk (Z.of_nat (length chunk)) st = Some (tt, st') ∧
    gChannelBuffers st' !! Z.to_nat c = Some (chunk ++ drop (length chunk) row) ∧
    (∀ i, (i < length chunk)%nat →
       gChannelBuffers st' !! Z.to_nat c ≫= (.!! i) = chunk !! i) ∧
    (∀ i, (length chunk ≤ i)%nat →
       gChannelBuffers st' !! Z.to_nat c ≫= (.!! i) = row !! i) ∧
    (∀ c', c' ≠ Z.to_nat c → gChannelBuffers st' !! c' = gChannelBuffers st !! c').
Proof.
  intros Hwf Hc Hrange Hlen.
  destruct (RouteAudioToChannel_mapped p chunk (Z.of_nat (length chunk)) st c)
    as (row & Hrow & Hroute); [done|done|done|lia|lia|].
  replace (Z.to_nat (Z.min (Z.of_nat (length chunk)) BUFFER_FRAMES))
    with (length chunk) in Hroute by lia.
  rewrite firstn_all in Hroute.
  eexists row, _. split; [done|]. split; [exact Hroute|].
  cbn [gChannelBuffers].
  assert (<[Z.to_nat c:=chunk ++ drop (length chunk) row]> (gChannelBuffers st)
            !! Z.to_nat c = Some (chunk ++ drop (length chunk) row)) as Hnew.
  { apply list_lookup_insert_eq. by eapply lookup_lt_Some. }
  split_and!.
  - done.
  - intros i Hi. rewrite Hnew. simpl. by rewrite lookup_app_l.
  - intros i Hi. rewrite Hnew. simpl. rewrite lookup_app_r, lookup_drop by done.
    f_equal. lia.
  - intros c' Hc'. by rewrite list_lookup_insert_ne.
Qed.

(** C5: a deposit of N > BUFFER_FRAMES frames by a process mapped to an
    in-range channel stores exactly the first BUFFER_FRAMES samples of the
    chunk in the channel's buffer; the samples from BUFFER_FRAMES on are
    dropped: the state after the deposit is the same for any two chunks
    with the same first BUFFER_FRAMES samples, so no later output depends
    on them. *)
Theorem RouteAudioToChannel_clamps (p c n : Z) (chunk : list sample) (st : driver) :
  wf st →
  lookup_channel p st = Some c →
  0 ≤ c < MAX_CHANNELS →
  n > BUFFER_FRAMES →
  BUFFER_FRAMES ≤ Z.of_nat (length chunk) →
  ∃ st',
    RouteAudioToChannel p chunk n st = Some (tt, st') ∧
    gChannelBuffers st' =
      <[Z.to_nat c := take (Z.to_nat BUFFER_FRAMES) chunk]> (gChannelBuffers st) ∧
    (∀ chunk' n', n' > BUFFER_FRAMES →
       take (Z.to_nat BUFFER_FRAMES) chunk' = take (Z.to_nat BUFFER_FRAMES) chunk →
       RouteAudioToChannel p chunk' n' st = Some (tt, st')).
Proof.
  intros Hwf Hc Hrange Hn Hlen.
  assert (Hgen : ∀ chunk' n', n' > BUFFER_FRAMES →
            BUFFER_FRAMES ≤ Z.of_nat (length chunk') →
            RouteAudioToChannel p chunk' n' st =
              Some (tt, {| gMappings := gMappings st;
                           gMappingCount := gMappingCount st;
                           gChannelBuffers :=
                             <[Z.to_nat c := take (Z.to_nat BUFFER_FRAMES) chunk']>
                               (gChannelBuffers st) |})).
  { intros chunk' n' Hn' Hlen'.
    destruct (RouteAudioToChannel_mapped p chunk' n' st c)
      as (row & Hrow & Hroute); [done|done|done|unfold BUFFER_FRAMES in *; lia|lia|].
    rewrite Hroute. replace (Z.min n' BUFFER_FRAMES) with BUFFER_FRAMES by lia.
    rewrite (drop_ge row), app_nil_r; [done|].
    destruct Hwf as [_ _ _ Hfr].
    by rewrite (Forall_lookup_1 _ _ _ _ Hfr Hrow). }
  eexists. split; [by apply Hgen|]. split; [done|].
  intros chunk' n' Hn' Heq. rewrite Hgen; [by rewrite Heq|done|].
  apply (f_equal length) in Heq. rewrite !length_take in Heq.
  unfold BUFFER_FRAMES in *. lia.
Qed.

(** ** Registering a process twice *)

(** C4 (as the code has it): from any table state of the declared shape in
    which no process has two slots (every reachable state is such) and in
    which p has a slot already or a slot is free, [MapPIDToChannel p c1]
    followed by [MapPIDToChannel p c2] leaves exactly one active entry for
    p, whose channel is c2, and a lookup of p gives c2. *)
Theorem MapPIDToChannel_twice (p c1 c2 : Z) (st : driver) :
  wf st →
  unique_pids st →
  can_register p st →
  let st' := (MapPIDToChannel p c2 (MapPIDToChannel p c1 st).2).2 in
  active_entries p st' = [mkPIDMapping p c2 1] ∧
  lookup_channel p st' = Some c2.
Proof.
  intros Hwf Hu Hcan st'.
  pose proof (MapPIDToChannel_wf p c1 st Hwf) as Hwf1.
  pose proof (MapPIDToChannel_unique p c1 st Hwf Hu) as Hu1.
  assert (can_register p (MapPIDToChannel p c1 st).2) as Hcan1.
  { left. eapply has_slot_lookup_channel. by apply lookup_channel_MapPIDToChannel. }
  split.
  - by apply active_entries_MapPIDToChannel.
  - by apply lookup_channel_MapPIDToChannel.
Qed.

(** ** Deposits of an unrouted process *)

Lemma active_entries_no_slot p st : ¬ has_slot p st → active_entries p st = [].
Proof. intros Hs. by apply lookup_channel_active_entries, lookup_channel_no_slot. Qed.

Lemma active_entries_UnmapPID p st :
  unique_pids st → active_entries p (UnmapPID p st).2 = [].
Proof.
  intros Hu. pose proof (UnmapPID_unique p st Hu) as Hu'.
  unfold active_entries, unique_pids in *.
  destruct (list_find (λ m, pid m = p) (entries st)) as [[i m]|] eqn:Hfind.
  - assert (entries (UnmapPID p st).2 !! i = Some (clear_active m)) as Hi.
    { rewrite UnmapPID_entries, Hfind. apply list_find_Some in Hfind as (Hi & _).
      by rewrite list_lookup_alter_eq, Hi. }
    apply list_find_Some in Hfind as (_ & <- & _).
    rewrite (filter_unique_pid (λ m, active m ≠ 0) _ i (clear_active m)) by done.
    by rewrite decide_False by (simpl; lia).
  - apply filter_none. intros m Hm [Hp _].
    rewrite UnmapPID_entries, Hfind in Hm.
    apply list_find_None in Hfind. by eapply Forall_forall in Hfind.
Qed.

(** C6: for every process p with no active entry in the table, be it that
    p has no slot at all (never registered) or that the state is the one
    after [UnmapPID p] in a table where no process has two slots
    (unregistered), a deposit returns normally and leaves the whole state,
    hence every channel buffer and the outcome of every later I/O
    operation, unchanged. *)
Theorem RouteAudioToChannel_unrouted (p n : Z) (chunk : list sample) (st : driver) :
  active_entries p st = [] ∨
  ¬ has_slot p st ∨
  (∃ st0, unique_pids st0 ∧ st = (UnmapPID p st0).2) →
  active_entries p st = [] ∧
  RouteAudioToChannel p chunk n st = Some (tt, st) ∧
  (∀ st' m out, RouteAudioToChannel p chunk n st = Some (tt, st') →
     gChannelBuffers st' = gChannelBuffers st ∧
     PlugIn_DoIOOperation m out st' = PlugIn_DoIOOperation m out st).
Proof.
  intros Hcase.
  assert (active_entries p st = []) as Hnone.
  { destruct Hcase as [?|[?|(st0 & Hu & ->)]];
      [done|by apply active_entries_no_slot|by apply active_entries_UnmapPID]. }
  split; [done|]. apply lookup_channel_active_entries in Hnone.
  assert (RouteAudioToChannel p chunk n st = Some (tt, st)) as Hdrop.
  { apply RouteAudioToChannel_dropped. intros (c & Hc & _). congruence. }
  split; [done|]. intros st' m out Hst'. rewrite Hdrop in Hst'. by simplify_eq.
Qed.

(** ** Unregistering keeps the buffers *)

(** C8: [UnmapPID] changes no channel buffer: in every state, so also
    right after a deposit by p into its channel, the buffer bank after
    [UnmapPID p] is the one before, and an I/O operation after it returns
    what it would have returned before, the sum of all channel buffers,
    the unmapped process's last samples included. *)
Theorem UnmapPID_keeps_buffers (p : Z) (n : N) (out : list sample) (st : driver) :
  wf st →
  (frames_to_copy n ≤ length out)%nat →
  gChannelBuffers (UnmapPID p st).2 = gChannelBuffers st ∧
  PlugIn_DoIOOperation n (Some out) (UnmapPID p st).2 =
    PlugIn_DoIOOperation n (Some out) st ∧
  ∃ out',
    PlugIn_DoIOOperation n (Some out) (UnmapPID p st).2 =
      Some (kAudioHardwareNoError, Some out') ∧
    ∀ i, (i < frames_to_copy n)%nat → out' !! i = Some (mix_sum (gChannelBuffers st) i).
Proof.
  intros Hwf Hout.
  assert (PlugIn_DoIOOperation n (Some out) (UnmapPID p st).2 =
          PlugIn_DoIOOperation n (Some out) st) as Heq.
  { unfold PlugIn_DoIOOperation. by rewrite UnmapPID_buffers. }
  split_and!; [apply UnmapPID_buffers|done|].
  destruct (PlugIn_DoIOOperation_buffer n out st Hwf Hout) as (out' & Hio & _ & Hmix & _).
  exists out'. by rewrite Heq.
Qed.

(** ** One slot per process *)

Lemma register_all_reachable regs st : reachable st → reachable (register_all regs st).
Proof.
  intros Hreach. induction regs as [|r regs IH] using rev_ind; [done|].
  rewrite register_all_snoc.
  by apply (reachable_step _ (OpRegister r.1 r.2) _ IH).
Qed.

Lemma MapPIDToChannel_count_slot p ch st :
  has_slot p st → gMappingCount (MapPIDToChannel p ch st).2 = gMappingCount st.
Proof. intros [[i m] Hs]. unfold MapPIDToChannel. by rewrite Hs. Qed.

Lemma has_slot_UnmapPID p q st : has_slot q (UnmapPID p st).2 ↔ has_slot q st.
Proof. by rewrite !has_slot_elem, UnmapPID_pids. Qed.

(** C9: in every state reachable from the initial state by calls of
    [MapPIDToChannel], [UnmapPID], [RouteAudioToChannel] and
    [PlugIn_DoIOOperation], no process has two slots, active or not, among
    the slots in use, so no process has two active entries; and
    registering a process that has a slot reuses it whatever the number of
    slots in use: the slot count and the processes of the slots stay as
    they are and a lookup then gives the new channel.  Slots do arise: a
    registration that can take effect gives the process a slot and routes
    it.  The slot is reused whatever its active flag: after [UnmapPID] the
    process keeps its slot, unrouted, and registering it again routes it
    with the slot count unchanged.  And it is reused at full capacity:
    registering MAX_PID_MAPPINGS distinct processes from the initial state
    gives a reachable state with every slot in use, in which each of them
    is registered again, active or unregistered first, with the count
    still MAX_PID_MAPPINGS. *)
Theorem reachable_unique_slots (st : driver) :
  reachable st →
  wf st ∧
  NoDup (pid <$> entries st) ∧
  (∀ p, (length (active_entries p st) ≤ 1)%nat) ∧
  (∀ p ch, has_slot p st →
     lookup_channel p (MapPIDToChannel p ch st).2 = Some ch ∧
     gMappingCount (MapPIDToChannel p ch st).2 = gMappingCount st ∧
     pid <$> entries (MapPIDToChannel p ch st).2 = pid <$> entries st) ∧
  (∀ p ch, can_register p st →
     reachable (MapPIDToChannel p ch st).2 ∧
     has_slot p (MapPIDToChannel p ch st).2 ∧
     lookup_channel p (MapPIDToChannel p ch st).2 = Some ch) ∧
  (∀ p ch, has_slot p st →
     reachable (UnmapPID p st).2 ∧
     has_slot p (UnmapPID p st).2 ∧
     lookup_channel p (UnmapPID p st).2 = None ∧
     lookup_channel p (MapPIDToChannel p ch (UnmapPID p st).2).2 = Some ch ∧
     gMappingCount (MapPIDToChannel p ch (UnmapPID p st).2).2 = gMappingCount st) ∧
  (∀ regs : list (Z * Z),
     NoDup regs.*1 →
     length regs = Z.to_nat MAX_PID_MAPPINGS →
     reachable (register_all regs init) ∧
     gMappingCount (register_all regs init) = MAX_PID_MAPPINGS ∧
     ∀ q ch ch', (q, ch) ∈ regs →
       has_slot q (register_all regs init) ∧
       lookup_channel q (register_all regs init) = Some ch ∧
       lookup_channel q (MapPIDToChannel q ch' (register_all regs init)).2 = Some ch' ∧
       gMappingCount (MapPIDToChannel q ch' (register_all regs init)).2
         = MAX_PID_MAPPINGS ∧
       lookup_channel q
         (MapPIDToChannel q ch' (UnmapPID q (register_all regs init)).2).2 = Some ch' ∧
       gMappingCount (MapPIDToChannel q ch' (UnmapPID q (register_all regs init)).2).2
         = MAX_PID_MAPPINGS).
Proof.
  assert (Hreuse : ∀ s p ch, reachable s → has_slot p s →
            reachable (UnmapPID p s).2 ∧
            has_slot p (UnmapPID p s).2 ∧
            lookup_channel p (UnmapPID p s).2 = None ∧
            lookup_channel p (MapPIDToChannel p ch (UnmapPID p s).2).2 = Some ch ∧
            gMappingCount (MapPIDToChannel p ch (UnmapPID p s).2).2 = gMappingCount s).
  { intros s p ch Hreach Hs. destruct (reachable_inv s Hreach) as [Hwf Hu].
    assert (has_slot p (UnmapPID p s).2) as Hs' by by apply has_slot_UnmapPID.
    split_and!.
    - by apply (reachable_step s (OpUnregister p)).
    - done.
    - by apply lookup_channel_active_entries, active_entries_UnmapPID.
    - apply lookup_channel_MapPIDToChannel; [by apply UnmapPID_wf|by left].
    - rewrite MapPIDToChannel_count_slot by done.
      unfold UnmapPID. by destruct (list_find _ _) as [[i m]|]. }
  intros Hreach. destruct (reachable_inv st Hreach) as [Hwf Hu].
  split_and!; [done|done| | | | |].
  - intros p. by apply active_entries_unique.
  - intros p ch Hs. split_and!.
    + apply lookup_channel_MapPIDToChannel; [done|by left].
    + by apply MapPIDToChannel_count_slot.
    + rewrite MapPIDToChannel_pids by done. rewrite decide_False; [done|].
      by intros [_ ?].
  - intros p ch Hcan.
    pose proof (lookup_channel_MapPIDToChannel p ch st Hwf Hcan) as Hl.
    split_and!; [|by eapply has_slot_lookup_channel|done].
    by apply (reachable_step st (OpRegister p ch)).
  - intros p ch Hs. by apply Hreuse.
  - intros regs Hnd Hlen.
    assert (reachable (register_all regs init)) as Hfull
      by apply register_all_reachable, reachable_init.
    destruct (reachable_inv _ Hfull) as [Hwf' Hu'].
    assert (gMappingCount (register_all regs init) = MAX_PID_MAPPINGS) as Hcount.
    { rewrite register_all_count by (done || lia). rewrite Hlen.
      unfold MAX_PID_MAPPINGS. lia. }
    split_and!; [done|done|].
    intros q ch ch' [k Hk]%list_elem_of_lookup.
    assert (lookup_channel q (register_all regs init) = Some ch) as Hl.
    { eapply (lookup_channel_new_mappings regs _ k); [|done|done].
      apply register_all_init; [done|lia]. }
    assert (has_slot q (register_all regs init)) as Hs
      by by eapply has_slot_lookup_channel.
    destruct (Hreuse _ q ch' Hfull Hs) as (_ & _ & _ & Hl2 & Hc2).
    split_and!; [done|done| | |done|congruence].
    + apply lookup_channel_MapPIDToChannel; [done|by left].
    + by rewrite MapPIDToChannel_count_slot.
Qed.

(** ** Channels outside the bank *)

(** C10: [MapPIDToChannel] stores any channel value: when the registration
    can take effect a lookup gives the channel as registered.  When that
    channel is outside [0, MAX_CHANNELS), every deposit of the process,
    right after the registration or in any later state where its lookup
    still gives that channel, returns normally and leaves the whole state,
    so every channel buffer, unchanged. *)
Theorem RouteAudioToChannel_out_of_range (p c n : Z) (chunk : list sample) (st : driver) :
  wf st →
  ¬ (0 ≤ c < MAX_CHANNELS) →
  (can_register p st → lookup_channel p (MapPIDToChannel p c st).2 = Some c) ∧
  RouteAudioToChannel p chunk n (MapPIDToChannel p c st).2 =
    Some (tt, (MapPIDToChannel p c st).2) ∧
  (∀ st', lookup_channel p st' = Some c →
     RouteAudioToChannel p chunk n st' = Some (tt, st')).
Proof.
  intros Hwf Hout.
  assert (Hlater : ∀ st', lookup_channel p st' = Some c →
            RouteAudioToChannel p chunk n st' = Some (tt, st')).
  { intros st' Hc. apply RouteAudioToChannel_dropped. intros (c' & Hc' & Hr).
    rewrite Hc in Hc'. by injection Hc' as <-. }
  split_and!; [by apply lookup_channel_MapPIDToChannel| |done].
  destruct (decide (can_register p st)) as [Hcan|Hno].
  - by apply Hlater, lookup_channel_MapPIDToChannel.
  - rewrite MapPIDToChannel_full by done. simpl.
    apply RouteAudioToChannel_dropped. intros (c' & Hc' & _).
    rewrite lookup_channel_no_slot in Hc'; [done|]. intros ?. apply Hno. by left.
Qed.

(** ** Two deposits into distinct channels *)

Lemma deposit_both_mapped p1 p2 c1 c2 chunk1 chunk2 st row1 row2 :
  wf st →
  lookup_channel p1 st = Some c1 → lookup_channel p2 st = Some c2 →
  0 ≤ c1 < MAX_CHANNELS → 0 ≤ c2 < MAX_CHANNELS → c1 ≠ c2 →
  gChannelBuffers st !! Z.to_nat c1 = Some row1 →
  gChannelBuffers st !! Z.to_nat c2 = Some row2 →
  deposit_both p1 chunk1 p2 chunk2 st =
    Some (tt, {| gMappings := gMappings st;
                 gMappingCount := gMappingCount st;
                 gChannelBuffers :=
                   <[Z.to_nat c2 := stored chunk2 row2]>
                     (<[Z.to_nat c1 := stored chunk1 row1]> (gChannelBuffers st)) |}).
Proof.
  intros Hwf H1 H2 Hr1 Hr2 Hne Hrow1 Hrow2. unfold deposit_both.
  destruct (RouteAudioToChannel_mapped p1 chunk1 (Z.of_nat (length chunk1)) st c1)
    as (row & Hrow & Hroute); [done|done|done|lia|lia|].
  assert (row = row1) as -> by congruence.
  pose proof (RouteAudioToChannel_wf _ _ _ _ _ Hwf Hroute) as Hwf1.
  rewrite Hroute. cbn [mbind option_bind snd].
  match type of Hwf1 with wf ?s => set (st1 := s) in * end.
  destruct (RouteAudioToChannel_mapped p2 chunk2 (Z.of_nat (length chunk2)) st1 c2)
    as (row & Hrow' & Hroute'); [done|exact H2|done|lia|lia|].
  assert (row = row2) as ->.
  { unfold st1 in Hrow'. cbn [gChannelBuffers] in Hrow'.
    rewrite list_lookup_insert_ne in Hrow' by lia. congruence. }
  exact Hroute'.
Qed.

Lemma stored_padded chunk i :
  (i < Z.to_nat BUFFER_FRAMES)%nat →
  stored chunk (replicate (Z.to_nat BUFFER_FRAMES) fzero) !! i = Some (padded chunk i).
Proof.
  intros Hi. unfold stored, padded.
  set (n := Z.to_nat (Z.min (Z.of_nat (length chunk)) BUFFER_FRAMES)).
  assert (length (take n chunk) = n) as Hl by (rewrite length_take; lia).
  destruct (decide (i < n)%nat) as [Hlt|Hge].
  - rewrite lookup_app_l by lia. rewrite lookup_take_lt by done.
    destruct (lookup_lt_is_Some_2 chunk i) as [x ->]; [lia|done].
  - rewrite lookup_app_r, lookup_drop by lia.
    rewrite lookup_replicate_2 by lia.
    rewrite (lookup_ge_None_2 chunk i); [done|]. unfold BUFFER_FRAMES in *. lia.
Qed.

(** ** The state after [AudioDriverPlugInOpen] *)

Lemma AudioDriverPlugInOpen_entries st :
  wf st →
  entries (AudioDriverPlugInOpen kAudioServerPlugInTypeUUID st).2
    = replicate (Z.to_nat (gMappingCount st)) (mkPIDMapping 0 0 0).
Proof.
  intros [_ Hc _ _]. unfold AudioDriverPlugInOpen.
  rewrite bool_decide_eq_false_2 by (by intros []).
  unfold entries. cbn [snd gMappings gMappingCount].
  rewrite take_replicate. f_equal. lia.
Qed.

Lemma AudioDriverPlugInOpen_wf st :
  wf st → wf (AudioDriverPlugInOpen kAudioServerPlugInTypeUUID st).2.
Proof.
  intros [_ Hc _ _]. unfold AudioDriverPlugInOpen.
  rewrite bool_decide_eq_false_2 by (by intros []). cbn [snd].
  split; cbn [gMappings gMappingCount gChannelBuffers].
  - by rewrite length_replicate.
  - done.
  - by rewrite length_replicate.
  - apply Forall_replicate. by rewrite length_replicate.
Qed.

Lemma AudioDriverPlugInOpen_count st :
  gMappingCount (AudioDriverPlugInOpen kAudioServerPlugInTypeUUID st).2 = gMappingCount st.
Proof.
  unfold AudioDriverPlugInOpen. by rewrite bool_decide_eq_false_2 by (by intros []).
Qed.

Lemma AudioDriverPlugInOpen_lookup st p :
  wf st → lookup_channel p (AudioDriverPlugInOpen kAudioServerPlugInTypeUUID st).2 = None.
Proof.
  intros Hwf. apply lookup_channel_active_entries. unfold active_entries.
  rewrite AudioDriverPlugInOpen_entries by done. apply filter_none.
  intros m ->%elem_of_replicate_inv [_ Ha]. by apply Ha.
Qed.

Section Linearity.

(** What the statement on two deposits asks of the sample arithmetic: an
    equivalence [feq] on samples that the addition respects, for which zero
    is neutral on both sides and the addition commutes.  Exact arithmetic
    has these laws with [feq] the equality; the additions of IEEE floats
    have them with [feq] the equality of values that identifies the two
    zeros (and the NaNs). *)
Variable feq : relation sample.
Hypothesis feq_equivalence : Equivalence feq.
Hypothesis fadd_proper : ∀ x x' y y', feq x x' → feq y y' → feq (fadd x y) (fadd x' y').
Hypothesis fadd_0_l : ∀ x, feq (fadd fzero x) x.
Hypothesis fadd_0_r : ∀ x, feq (fadd x fzero) x.
Hypothesis fadd_comm : ∀ x y, feq (fadd x y) (fadd y x).

Lemma foldl_fadd_feq (f : nat → sample) (a b : sample) (l : list nat) :
  feq a b →
  feq (foldl (λ acc ch, fadd acc (f ch)) a l) (foldl (λ acc ch, fadd acc (f ch)) b l).
Proof using feq_equivalence fadd_proper.
  revert a b. induction l as [|ch l IH]; intros a b Hab; [done|].
  simpl. apply IH, fadd_proper; [done|reflexivity].
Qed.

Lemma foldl_fadd_zeros (f : nat → sample) (a : sample) (l : list nat) :
  (∀ ch, ch ∈ l → f ch = fzero) →
  feq (foldl (λ acc ch, fadd acc (f ch)) a l) a.
Proof using feq_equivalence fadd_proper fadd_0_r.
  revert a. induction l as [|ch l IH]; intros a Hl; [reflexivity|].
  simpl. rewrite (Hl ch) by left.
  transitivity (fadd a fzero); [|apply fadd_0_r].
  apply IH. intros ch' Hch'. apply Hl. by right.
Qed.

Lemma foldl_fadd_two_ordered (f : nat → sample) (c1 c2 k : nat) :
  (c1 < c2 < k)%nat →
  (∀ ch, ch ≠ c1 → ch ≠ c2 → f ch = fzero) →
  feq (foldl (λ acc ch, fadd acc (f ch)) fzero (seq 0 k)) (fadd (f c1) (f c2)).
Proof using feq_equivalence fadd_proper fadd_0_l fadd_0_r.
  intros Hlt Hf.
  replace k with (c1 + (1 + ((c2 - S c1) + (1 + (k - S c2)))))%nat by lia.
  rewrite !seq_app, !foldl_app. cbn [seq foldl].
  replace (0 + c1)%nat with c1 by lia.
  replace (c1 + 1 + (c2 - S c1))%nat with c2 by lia.
  etrans.
  { apply foldl_fadd_zeros. intros ch [Hge Hch]%elem_of_seq. apply Hf; lia. }
  apply fadd_proper; [|reflexivity].
  etrans.
  { apply foldl_fadd_zeros. intros ch [Hge Hch]%elem_of_seq. apply Hf; lia. }
  transitivity (fadd fzero (f c1)); [|apply fadd_0_l].
  apply fadd_proper; [|reflexivity].
  apply foldl_fadd_zeros. intros ch [_ Hch]%elem_of_seq. apply Hf; lia.
Qed.

Lemma foldl_fadd_two (f : nat → sample) (c1 c2 k : nat) :
  c1 ≠ c2 → (c1 < k)%nat → (c2 < k)%nat →
  (∀ ch, ch ≠ c1 → ch ≠ c2 → f ch = fzero) →
  feq (foldl (λ acc ch, fadd acc (f ch)) fzero (seq 0 k)) (fadd (f c1) (f c2)).
Proof using feq_equivalence fadd_proper fadd_0_l fadd_0_r fadd_comm.
  intros Hne H1 H2 Hf. destruct (decide (c1 < c2)%nat).
  - apply foldl_fadd_two_ordered; [lia|done].
  - transitivity (fadd (f c2) (f c1)); [|apply fadd_comm].
    apply foldl_fadd_two_ordered; [lia|].
    intros ch ? ?. by apply Hf.
Qed.

(** C7 (as the code has it): for two processes mapped to distinct
    channels that both lie within [0, MAX_CHANNELS), from a
    zeroed buffer bank, the two deposits give the same state in either
    order, and the output of the I/O operation after them is, at every
    frame mixed, the sum of the two chunks read with zeros beyond their
    ends.  The sum is meant up to [feq], under the laws above: with [feq]
    the equality it is the sum itself. *)
Theorem mix_two_deposits (p1 p2 c1 c2 : Z) (chunk1 chunk2 : list sample)
    (n : N) (out : list sample) (st : driver) :
  wf st →
  gChannelBuffers st = gChannelBuffers init →
  lookup_channel p1 st = Some c1 →
  lookup_channel p2 st = Some c2 →
  0 ≤ c1 < MAX_CHANNELS →
  0 ≤ c2 < MAX_CHANNELS →
  c1 ≠ c2 →
  (frames_to_copy n ≤ length out)%nat →
  ∃ st' out',
    deposit_both p1 chunk1 p2 chunk2 st = Some (tt, st') ∧
    deposit_both p2 chunk2 p1 chunk1 st = Some (tt, st') ∧
    PlugIn_DoIOOperation n (Some out) st' = Some (kAudioHardwareNoError, Some out') ∧
    ∀ i, (i < frames_to_copy n)%nat →
      ∃ x, out' !! i = Some x ∧ feq x (fadd (padded chunk1 i) (padded chunk2 i)).
Proof using feq_equivalence fadd_proper fadd_0_l fadd_0_r fadd_comm.
  intros Hwf Hzero H1 H2 Hr1 Hr2 Hne Hout.
  set (zrow := replicate (Z.to_nat BUFFER_FRAMES) fzero).
  assert (Hrow : ∀ c, 0 ≤ c < MAX_CHANNELS → gChannelBuffers st !! Z.to_nat c = Some zrow).
  { intros c Hc. rewrite Hzero. unfold init. cbn [gChannelBuffers].
    apply lookup_replicate_2. unfold MAX_CHANNELS in *. lia. }
  pose proof (deposit_both_mapped p1 p2 c1 c2 chunk1 chunk2 st zrow zrow
                Hwf H1 H2 Hr1 Hr2 Hne (Hrow c1 Hr1) (Hrow c2 Hr2)) as H12.
  pose proof (deposit_both_mapped p2 p1 c2 c1 chunk2 chunk1 st zrow zrow
                Hwf H2 H1 Hr2 Hr1 (not_eq_sym Hne) (Hrow c2 Hr2) (Hrow c1 Hr1)) as H21.
  rewrite (list_insert_insert_ne _ (Z.to_nat c1) (Z.to_nat c2)) in H21 by lia.
  match type of H12 with _ = Some (tt, ?s) => set (st' := s) in * end.
  assert (wf st') as Hwf'.
  { unfold deposit_both in H12.
    destruct (RouteAudioToChannel p1 _ _ st) as [[[] st1]|] eqn:E1; [|done].
    simpl in H12.
    eapply RouteAudioToChannel_wf; [|exact H12].
    by eapply RouteAudioToChannel_wf. }
  destruct (PlugIn_DoIOOperation_buffer n out st' Hwf' Hout) as (out' & Hio & _ & Hmix & _).
  exists st', out'. split_and!; [done..|].
  intros i Hi. eexists. split; [by apply Hmix|].
  assert (i < Z.to_nat BUFFER_FRAMES)%nat as Hi' by (unfold frames_to_copy in Hi; lia).
  destruct Hwf as [_ _ Hch _].
  assert (sample_at (gChannelBuffers st') (Z.to_nat c1) i = padded chunk1 i) as S1.
  { unfold sample_at, st'. cbn [gChannelBuffers].
    rewrite list_lookup_insert_ne by lia.
    rewrite list_lookup_insert_eq by (rewrite Hch; unfold MAX_CHANNELS in *; lia).
    cbn [mbind option_bind]. by rewrite stored_padded. }
  assert (sample_at (gChannelBuffers st') (Z.to_nat c2) i = padded chunk2 i) as S2.
  { unfold sample_at, st'. cbn [gChannelBuffers].
    rewrite list_lookup_insert_eq
      by (rewrite length_insert, Hch; unfold MAX_CHANNELS in *; lia).
    cbn [mbind option_bind]. by rewrite stored_padded. }
  rewrite <- S1, <- S2. unfold mix_sum.
  apply (foldl_fadd_two (λ ch, sample_at (gChannelBuffers st') ch i));
    [lia|unfold MAX_CHANNELS in *; lia..|].
  intros ch Hc1 Hc2. unfold sample_at, st'. cbn [gChannelBuffers].
  rewrite !list_lookup_insert_ne by done. rewrite Hzero. unfold init.
  cbn [gChannelBuffers].
  destruct (decide (ch < Z.to_nat MAX_CHANNELS)%nat).
  - rewrite lookup_replicate_2 by done. cbn [mbind option_bind].
    by rewrite lookup_replicate_2.
  - by rewrite lookup_ge_None_2 by (rewrite length_replicate; lia).
Qed.

Lemma foldl_fadd_one (f : nat → sample) (c k : nat) :
  (c < k)%nat →
  (∀ ch, ch ≠ c → f ch = fzero) →
  feq (foldl (λ acc ch, fadd acc (f ch)) fzero (seq 0 k)) (f c).
Proof using feq_equivalence fadd_proper fadd_0_l fadd_0_r.
  intros Hlt Hf.
  replace k with (c + (1 + (k - S c)))%nat by lia.
  rewrite !seq_app, !foldl_app. cbn [seq foldl].
  replace (0 + c)%nat with c by lia.
  etrans.
  { apply foldl_fadd_zeros. intros ch [Hge Hch]%elem_of_seq. apply Hf; lia. }
  transitivity (fadd fzero (f c)); [|apply fadd_0_l].
  apply fadd_proper; [|reflexivity].
  apply foldl_fadd_zeros. intros ch [_ Hch]%elem_of_seq. apply Hf; lia.
Qed.

Lemma sample_at_zero_bank (ch i : nat) :
  sample_at (gChannelBuffers init) ch i = fzero.
Proof using Type.
  unfold sample_at, init. cbn [gChannelBuffers].
  destruct (decide (ch < Z.to_nat MAX_CHANNELS)%nat).
  - rewrite lookup_replicate_2 by done. cbn [mbind option_bind].
    destruct (decide (i < Z.to_nat BUFFER_FRAMES)%nat).
    + by rewrite lookup_replicate_2.
    + by rewrite lookup_ge_None_2 by (rewrite length_replicate; lia).
  - by rewrite lookup_ge_None_2 by (rewrite length_replicate; lia).
Qed.

(** X15: routing end to end.  From a zeroed buffer bank, once a process
    is registered on a channel of the bank (it has a slot or one is free)
    and has deposited a chunk, the I/O operation gives back that chunk,
    cut at BUFFER_FRAMES and read with zeros beyond its end, at every
    frame mixed (up to [feq], under the laws above). *)
Theorem deposit_then_mix (p c : Z) (chunk : list sample) (n : N) (out : list sample)
    (st : driver) :
  wf st →
  gChannelBuffers st = gChannelBuffers init →
  can_register p st →
  0 ≤ c < MAX_CHANNELS →
  (frames_to_copy n ≤ length out)%nat →
  ∃ st' out',
    RouteAudioToChannel p chunk (Z.of_nat (length chunk)) (MapPIDToChannel p c st).2
      = Some (tt, st') ∧
    PlugIn_DoIOOperation n (Some out) st' = Some (kAudioHardwareNoError, Some out') ∧
    ∀ i, (i < frames_to_copy n)%nat →
      ∃ x, out' !! i = Some x ∧ feq x (padded chunk i).
Proof using feq_equivalence fadd_proper fadd_0_l fadd_0_r.
  intros Hwf Hzero Hcan Hrange Hout.
  pose proof (MapPIDToChannel_wf p c st Hwf) as Hwf1.
  pose proof (lookup_channel_MapPIDToChannel p c st Hwf Hcan) as Hc.
  pose proof (MapPIDToChannel_buffers p c st) as Hb.
  set (st1 := (MapPIDToChannel p c st).2) in *.
  destruct (RouteAudioToChannel_mapped p chunk (Z.of_nat (length chunk)) st1 c)
    as (row & Hrow & Hroute); [done|done|done|lia|lia|].
  assert (row = replicate (Z.to_nat BUFFER_FRAMES) fzero) as ->.
  { rewrite Hb, Hzero in Hrow. unfold init in Hrow. cbn [gChannelBuffers] in Hrow.
    rewrite lookup_replicate_2 in Hrow by (unfold MAX_CHANNELS in *; lia).
    by injection Hrow as <-. }
  pose proof (RouteAudioToChannel_wf _ _ _ _ _ Hwf1 Hroute) as Hwf'.
  match type of Hwf' with wf ?s => set (st' := s) in * end.
  destruct (PlugIn_DoIOOperation_buffer n out st' Hwf' Hout) as (out' & Hio & _ & Hmix & _).
  exists st', out'. split_and!; [done..|].
  intros i Hi. eexists. split; [by apply Hmix|].
  assert (i < Z.to_nat BUFFER_FRAMES)%nat as Hi' by (unfold frames_to_copy in Hi; lia).
  destruct Hwf1 as [_ _ Hch _].
  assert (sample_at (gChannelBuffers st') (Z.to_nat c) i = padded chunk i) as <-.
  { unfold sample_at, st'. cbn [gChannelBuffers].
    rewrite list_lookup_insert_eq by (rewrite Hch; unfold MAX_CHANNELS in *; lia).
    cbn [mbind option_bind].
    pose proof (stored_padded chunk i Hi') as Hs. unfold stored in Hs. by rewrite Hs. }
  unfold mix_sum.
  apply (foldl_fadd_one (λ ch, sample_at (gChannelBuffers st') ch i));
    [unfold MAX_CHANNELS in *; lia|].
  intros ch Hne. unfold st'. cbn [gChannelBuffers].
  transitivity (sample_at (gChannelBuffers st1) ch i).
  - unfold sample_at. by rewrite list_lookup_insert_ne.
  - rewrite Hb, Hzero. apply sample_at_zero_bank.
Qed.

(** X16: [AudioDriverPlugInOpen] silences the mix.  Whatever the channel
    buffers held, the I/O operation after a successful open gives zero at
    every frame mixed (up to [feq]: zero added to zero sixteen times). *)
Theorem AudioDriverPlugInOpen_silence (n : N) (out : list sample) (st : driver) :
  wf st →
  (frames_to_copy n ≤ length out)%nat →
  ∃ out',
    PlugIn_DoIOOperation n (Some out) (AudioDriverPlugInOpen kAudioServerPlugInTypeUUID st).2
      = Some (kAudioHardwareNoError, Some out') ∧
    ∀ i, (i < frames_to_copy n)%nat → ∃ x, out' !! i = Some x ∧ feq x fzero.
Proof using feq_equivalence fadd_proper fadd_0_r.
  intros Hwf Hout. pose proof (AudioDriverPlugInOpen_wf st Hwf) as Hwf'.
  destruct (PlugIn_DoIOOperation_buffer n out _ Hwf' Hout) as (out' & Hio & _ & Hmix & _).
  exists out'. split; [done|].
  intros i Hi. eexists. split; [by apply Hmix|].
  unfold mix_sum. apply foldl_fadd_zeros. intros ch _.
  unfold AudioDriverPlugInOpen. rewrite bool_decide_eq_false_2 by (by intros []).
  apply sample_at_zero_bank.
Qed.

End Linearity.

(** * Further properties of the routing table *)

(** X1: [UnmapPID] of a process that has no slot changes nothing, and
    [UnmapPID] twice is [UnmapPID] once, in every state. *)
Theorem UnmapPID_idempotent (p : Z) (st : driver) :
  (¬ has_slot p st → UnmapPID p st = (tt, st)) ∧
  UnmapPID p (UnmapPID p st).2 = UnmapPID p st.
Proof.
  split.
  - intros Hs. unfold UnmapPID.
    destruct (list_find _ _) as [[i m]|] eqn:Hfind; [|done].
    destruct Hs. unfold has_slot. by rewrite Hfind.
  - destruct (list_find (λ m, pid m = p) (entries st)) as [[i m]|] eqn:Hfind.
    + assert (list_find (λ m, pid m = p) (entries (UnmapPID p st).2)
              = Some (i, clear_active m)) as Hfind'.
      { rewrite UnmapPID_entries, Hfind.
        eapply (list_find_alter_hit (λ m, pid m = p)); [exact Hfind|done|].
        by apply list_find_Some in Hfind as (_ & Hp & _). }
      unfold UnmapPID at 1. rewrite Hfind'.
      unfold UnmapPID. rewrite Hfind. cbn [snd gMappings gMappingCount gChannelBuffers].
      by rewrite list_alter_alter_eq.
    + unfold UnmapPID. rewrite Hfind. cbn [snd]. by rewrite Hfind.
Qed.

Lemma lookup_channel_UnmapPID p st :
  unique_pids st → lookup_channel p (UnmapPID p st).2 = None.
Proof. intros Hu. by apply lookup_channel_active_entries, active_entries_UnmapPID. Qed.

Lemma lookup_channel_UnmapPID_ne p q st :
  q ≠ p → lookup_channel q (UnmapPID p st).2 = lookup_channel q st.
Proof.
  intros Hne. unfold lookup_channel. rewrite UnmapPID_entries.
  destruct (list_find (λ m, pid m = p) (entries st)) as [[i m]|] eqn:Hfind; [|done].
  rewrite list_find_alter_skip; [done|].
  apply list_find_Some in Hfind as (Hi & Hp & _).
  intros x Hx. assert (x = m) as -> by congruence.
  split; intros [Hq _]; simpl in Hq; congruence.
Qed.

Lemma UnmapPID_count p st : gMappingCount (UnmapPID p st).2 = gMappingCount st.
Proof. unfold UnmapPID. by destruct (list_find _ _) as [[i m]|]. Qed.

(** X2: in a table where no process has two slots, [UnmapPID p] leaves p
    unrouted and changes the routing of no other process; the slot count
    and the processes of the slots stay as they are. *)
Theorem UnmapPID_unroutes (p : Z) (st : driver) :
  unique_pids st →
  lookup_channel p (UnmapPID p st).2 = None ∧
  (∀ q, q ≠ p → lookup_channel q (UnmapPID p st).2 = lookup_channel q st) ∧
  gMappingCount (UnmapPID p st).2 = gMappingCount st ∧
  pid <$> entries (UnmapPID p st).2 = pid <$> entries st.
Proof.
  intros Hu. split_and!.
  - by apply lookup_channel_UnmapPID.
  - intros q Hne. by apply lookup_channel_UnmapPID_ne.
  - apply UnmapPID_count.
  - apply UnmapPID_pids.
Qed.

(** X3: [MapPIDToChannel p] changes the routing of no other process and
    no channel buffer, and uses at most one more slot. *)
Theorem MapPIDToChannel_frame (p ch : Z) (st : driver) :
  wf st →
  (∀ q, q ≠ p → lookup_channel q (MapPIDToChannel p ch st).2 = lookup_channel q st) ∧
  gChannelBuffers (MapPIDToChannel p ch st).2 = gChannelBuffers st ∧
  gMappingCount st ≤ gMappingCount (MapPIDToChannel p ch st).2 ≤ gMappingCount st + 1.
Proof.
  intros Hwf. split_and!.
  - intros q Hne. by apply lookup_channel_MapPIDToChannel_ne.
  - apply MapPIDToChannel_buffers.
  - unfold MapPIDToChannel. destruct (list_find _ _) as [[i m]|]; simpl; [lia|].
    case_bool_decide; simpl; lia.
  - unfold MapPIDToChannel. destruct (list_find _ _) as [[i m]|]; simpl; [lia|].
    case_bool_decide; simpl; lia.
Qed.

Lemma run_op_wf o st st' : wf st → run_op o st = Some st' → wf st'.
Proof.
  intros Hwf Hrun. destruct o as [p ch|p|p samples n|n output]; simpl in Hrun.
  - injection Hrun as <-. by apply MapPIDToChannel_wf.
  - injection Hrun as <-. by apply UnmapPID_wf.
  - destruct (RouteAudioToChannel p samples n st) as [[[] st'']|] eqn:Hroute; [|done].
    injection Hrun as <-. by eapply RouteAudioToChannel_wf.
  - destruct (PlugIn_DoIOOperation n output st); [|done]. by injection Hrun as <-.
Qed.

Lemma run_op_slots o st st' :
  wf st → run_op o st = Some st' →
  pid <$> entries st `prefix_of` pid <$> entries st' ∧
  gMappingCount st ≤ gMappingCount st'.
Proof.
  intros Hwf Hrun. destruct o as [p ch|p|p samples n|n output]; simpl in Hrun.
  - injection Hrun as <-. split.
    + rewrite MapPIDToChannel_pids by done. case_decide; [by apply prefix_app_r|done].
    + unfold MapPIDToChannel. destruct (list_find _ _) as [[i m]|]; simpl; [lia|].
      case_bool_decide; simpl; lia.
  - injection Hrun as <-. split; [by rewrite UnmapPID_pids|].
    unfold UnmapPID. destruct (list_find _ _) as [[i m]|]; simpl; lia.
  - destruct (RouteAudioToChannel p samples n st) as [[[] st'']|] eqn:Hroute; [|done].
    injection Hrun as <-.
    rewrite (RouteAudioToChannel_entries _ _ _ _ _ Hroute).
    apply RouteAudioToChannel_table in Hroute as [_ ->]. split; [done|lia].
  - destruct (PlugIn_DoIOOperation n output st); [|done]. injection Hrun as <-.
    split; [done|lia].
Qed.

Lemma run_ops_snoc os o st : run_ops (os ++ [o]) st = run_ops os st ≫= run_op o.
Proof. unfold run_ops. by rewrite foldl_snoc. Qed.

(** X4: the table never compacts.  Along any run of registrations,
    unregistrations, deposits and I/O operations from a state of the
    declared shape, the processes of the slots in use before the run are
    still, in the same order, those of the first slots after it: the slot
    count never decreases and a process that has a slot keeps it. *)
Theorem run_ops_never_compacts (os : list op) (st st' : driver) :
  wf st →
  run_ops os st = Some st' →
  wf st' ∧
  pid <$> entries st `prefix_of` pid <$> entries st' ∧
  gMappingCount st ≤ gMappingCount st' ∧
  (∀ p, has_slot p st → has_slot p st').
Proof.
  intros Hwf. revert st'.
  assert (Hmain : ∀ st', run_ops os st = Some st' →
            wf st' ∧ pid <$> entries st `prefix_of` pid <$> entries st' ∧
            gMappingCount st ≤ gMappingCount st').
  { induction os as [|o os IH] using rev_ind; intros st' Hrun.
    - injection Hrun as <-. split_and!; [done|done|lia].
    - rewrite run_ops_snoc in Hrun.
      destruct (run_ops os st) as [st1|] eqn:Hos; [|done]. simpl in Hrun.
      destruct (IH st1 eq_refl) as (Hwf1 & Hpre & Hcount).
      destruct (run_op_slots o st1 st' Hwf1 Hrun) as [Hpre' Hcount'].
      split_and!; [by eapply run_op_wf|by etrans|lia]. }
  intros st' Hrun. destruct (Hmain st' Hrun) as (Hwf' & Hpre & Hcount).
  split_and!; [done..|].
  intros p. rewrite !has_slot_elem. destruct Hpre as [k ->].
  intros Hp. apply elem_of_app. by left.
Qed.

(** X5: registering, unregistering and registering again reuses the slot.
    From a table of the declared shape where no process has two slots and
    p can be registered, after [MapPIDToChannel p c1], [UnmapPID p] and
    [MapPIDToChannel p c2] the process is unrouted in between, routed to c2
    at the end with that one active entry, and the slot count is the one
    after the first registration. *)
Theorem MapPIDToChannel_after_UnmapPID (p c1 c2 : Z) (st : driver) :
  wf st →
  unique_pids st →
  can_register p st →
  let st1 := (MapPIDToChannel p c1 st).2 in
  let st2 := (UnmapPID p st1).2 in
  let st3 := (MapPIDToChannel p c2 st2).2 in
  lookup_channel p st1 = Some c1 ∧
  lookup_channel p st2 = None ∧
  lookup_channel p st3 = Some c2 ∧
  active_entries p st3 = [mkPIDMapping p c2 1] ∧
  gMappingCount st3 = gMappingCount st1.
Proof.
  intros Hwf Hu Hcan st1 st2 st3.
  assert (wf st1) as Hwf1 by by apply MapPIDToChannel_wf.
  assert (unique_pids st1) as Hu1 by by apply MapPIDToChannel_unique.
  assert (lookup_channel p st1 = Some c1) as H1
    by by apply lookup_channel_MapPIDToChannel.
  assert (wf st2) as Hwf2 by by apply UnmapPID_wf.
  assert (unique_pids st2) as Hu2 by by apply UnmapPID_unique.
  assert (has_slot p st2) as Hs2.
  { apply has_slot_elem. unfold st2. rewrite UnmapPID_pids. apply has_slot_elem.
    by eapply has_slot_lookup_channel. }
  split_and!.
  - done.
  - by apply lookup_channel_active_entries, active_entries_UnmapPID.
  - apply lookup_channel_MapPIDToChannel; [done|by left].
  - apply active_entries_MapPIDToChannel; [done..|by left].
  - transitivity (gMappingCount st2).
    + unfold st3, MapPIDToChannel. by destruct Hs2 as [[i m] ->].
    + unfold st2, UnmapPID. by destruct (list_find _ _) as [[i m]|].
Qed.

Lemma unmap_all_snoc ps p st :
  unmap_all (ps ++ [p]) st = (UnmapPID p (unmap_all ps st)).2.
Proof. unfold unmap_all. by rewrite foldl_snoc. Qed.

Lemma unmap_all_table ps st :
  gMappingCount (unmap_all ps st) = gMappingCount st ∧
  pid <$> entries (unmap_all ps st) = pid <$> entries st.
Proof.
  induction ps as [|p ps [IHc IHp]] using rev_ind; [done|].
  rewrite unmap_all_snoc, UnmapPID_pids. split; [|done].
  rewrite <- IHc. unfold UnmapPID. by destruct (list_find _ _) as [[i m]|].
Qed.

(** X6: unregistering frees no capacity.  Once all MAX_PID_MAPPINGS slots
    are in use, a process without a slot cannot be registered, however
    many processes are unregistered first: the call changes nothing and
    the process stays unrouted. *)
Theorem UnmapPID_frees_no_slot (p ch : Z) (ps : list Z) (st : driver) :
  gMappingCount st = MAX_PID_MAPPINGS →
  ¬ has_slot p st →
  MapPIDToChannel p ch (unmap_all ps st) = (tt, unmap_all ps st) ∧
  lookup_channel p (MapPIDToChannel p ch (unmap_all ps st)).2 = None.
Proof.
  intros Hfull Hs. destruct (unmap_all_table ps st) as [Hc Hp].
  assert (¬ has_slot p (unmap_all ps st)) as Hs'.
  { by rewrite has_slot_elem, Hp, <- has_slot_elem. }
  assert (MapPIDToChannel p ch (unmap_all ps st) = (tt, unmap_all ps st)) as Hdrop.
  { apply MapPIDToChannel_full. intros [?|Hroom]; [done|]. lia. }
  split; [done|]. rewrite Hdrop. by apply lookup_channel_no_slot.
Qed.

(** * Further properties of the deposits and of the mix *)

(** X7: when a deposit is defined.  In a state of the declared shape,
    [RouteAudioToChannel] stays within its arrays exactly when the process
    is unrouted or routed outside the bank (nothing is copied), or the
    frame count is not negative and the chunk holds the frames copied,
    min(frames, BUFFER_FRAMES) of them. *)
Theorem RouteAudioToChannel_defined (p n : Z) (chunk : list sample) (st : driver) :
  wf st →
  is_Some (RouteAudioToChannel p chunk n st) ↔
  (∀ c, lookup_channel p st = Some c → 0 ≤ c < MAX_CHANNELS →
     0 ≤ n ∧ Z.min n BUFFER_FRAMES ≤ Z.of_nat (length chunk)).
Proof.
  intros Hwf. split.
  - intros Hsome c Hc Hrange.
    destruct (decide (0 ≤ n ∧ Z.min n BUFFER_FRAMES ≤ Z.of_nat (length chunk)))
      as [|Hbad]; [done|].
    exfalso. revert Hsome. unfold RouteAudioToChannel.
    rewrite Hc. cbn [default from_option id].
    rewrite bool_decide_eq_true_2 by lia.
    destruct (gChannelBuffers st !! Z.to_nat c) as [dst|]; [|by intros [? ?]].
    cbn [mbind option_bind]. unfold memcpy.
    rewrite bool_decide_eq_false_2; [by intros [? ?]|].
    intros (H0 & Hsrc & _). apply Hbad. revert H0 Hsrc.
    case_bool_decide; unfold BUFFER_FRAMES in *; lia.
  - intros Hok.
    destruct (lookup_channel p st) as [c|] eqn:Hc.
    + destruct (decide (0 ≤ c < MAX_CHANNELS)) as [Hrange|Hout].
      * destruct (Hok c eq_refl Hrange) as [Hn Hlen].
        destruct (RouteAudioToChannel_mapped p chunk n st c) as (row & _ & ->); done.
      * rewrite RouteAudioToChannel_dropped; [done|].
        intros (c' & Hc' & Hr). rewrite Hc in Hc'. by injection Hc' as <-.
    + rewrite RouteAudioToChannel_dropped; [done|].
      intros (c' & Hc' & _). by rewrite Hc in Hc'.
Qed.

(** X8: when an I/O operation is defined.  In a state of the declared
    shape, [PlugIn_DoIOOperation] with a buffer stays within it exactly
    when the buffer holds min(n, BUFFER_FRAMES) samples. *)
Theorem PlugIn_DoIOOperation_defined (n : N) (out : list sample) (st : driver) :
  wf st →
  is_Some (PlugIn_DoIOOperation n (Some out) st) ↔ (frames_to_copy n ≤ length out)%nat.
Proof.
  intros Hwf. split.
  - intros Hsome.
    destruct (decide (frames_to_copy n ≤ length out)%nat) as [|Hbad]; [done|].
    exfalso. revert Hsome. unfold PlugIn_DoIOOperation.
    assert (Z.to_nat (if bool_decide (Z.of_N n < BUFFER_FRAMES)
                      then Z.of_N n else BUFFER_FRAMES) = frames_to_copy n) as ->.
    { unfold frames_to_copy. case_bool_decide; f_equal; lia. }
    unfold memset0. rewrite bool_decide_eq_false_2 by done.
    cbn [mbind option_bind]. by intros [? ?].
  - intros Hout.
    by destruct (PlugIn_DoIOOperation_buffer n out st Hwf Hout) as (out' & -> & _).
Qed.

Lemma stored_stored chunk1 chunk2 row :
  (length chunk1 ≤ length chunk2)%nat →
  stored chunk2 (stored chunk1 row) = stored chunk2 row.
Proof.
  intros Hle. unfold stored. f_equal.
  set (n1 := Z.to_nat (Z.min (Z.of_nat (length chunk1)) BUFFER_FRAMES)).
  set (n2 := Z.to_nat (Z.min (Z.of_nat (length chunk2)) BUFFER_FRAMES)).
  assert (length (take n1 chunk1) = n1) as Hl by (rewrite length_take; lia).
  assert (n1 ≤ n2)%nat as Hn by lia.
  rewrite drop_app, Hl, (drop_ge (take n1 chunk1)) by lia. simpl.
  rewrite drop_drop. f_equal. lia.
Qed.

(** X9: the last deposit into a channel wins.  When two processes (or one
    process twice) routed to the same channel of the bank deposit one
    after the other, and the second chunk is at least as long as the
    first, the state is the one the second deposit alone gives. *)
Theorem RouteAudioToChannel_last_wins (p1 p2 c : Z) (chunk1 chunk2 : list sample)
    (st : driver) :
  wf st →
  lookup_channel p1 st = Some c →
  lookup_channel p2 st = Some c →
  0 ≤ c < MAX_CHANNELS →
  (length chunk1 ≤ length chunk2)%nat →
  is_Some (deposit_both p1 chunk1 p2 chunk2 st) ∧
  deposit_both p1 chunk1 p2 chunk2 st =
    RouteAudioToChannel p2 chunk2 (Z.of_nat (length chunk2)) st.
Proof.
  intros Hwf H1 H2 Hrange Hle. unfold deposit_both.
  destruct (RouteAudioToChannel_mapped p1 chunk1 (Z.of_nat (length chunk1)) st c)
    as (row & Hrow & Hroute1); [done|done|done|lia|lia|].
  destruct (RouteAudioToChannel_mapped p2 chunk2 (Z.of_nat (length chunk2)) st c)
    as (row2 & Hrow2 & Hroute2); [done|done|done|lia|lia|].
  assert (row2 = row) as -> by congruence.
  pose proof (RouteAudioToChannel_wf _ _ _ _ _ Hwf Hroute1) as Hwf1.
  rewrite Hroute1, Hroute2. cbn [mbind option_bind snd].
  match type of Hwf1 with wf ?s => set (st1 := s) in * end.
  destruct (RouteAudioToChannel_mapped p2 chunk2 (Z.of_nat (length chunk2)) st1 c)
    as (row1 & Hrow1 & Hroute); [done|exact H2|done|lia|lia|].
  rewrite Hroute. split; [by eexists|].
  unfold st1 in *. cbn [gMappings gMappingCount gChannelBuffers] in *.
  rewrite list_lookup_insert_eq in Hrow1 by (by eapply lookup_lt_Some).
  injection Hrow1 as <-.
  rewrite list_insert_insert_eq.
  pose proof (stored_stored chunk1 chunk2 row Hle) as Hs. unfold stored in Hs.
  by rewrite Hs.
Qed.

(** X10: deposits into distinct channels of the bank commute, whatever
    the buffers hold: both orders are defined and give the same state. *)
Theorem deposit_both_comm (p1 p2 c1 c2 : Z) (chunk1 chunk2 : list sample) (st : driver) :
  wf st →
  lookup_channel p1 st = Some c1 →
  lookup_channel p2 st = Some c2 →
  0 ≤ c1 < MAX_CHANNELS →
  0 ≤ c2 < MAX_CHANNELS →
  c1 ≠ c2 →
  is_Some (deposit_both p1 chunk1 p2 chunk2 st) ∧
  deposit_both p1 chunk1 p2 chunk2 st = deposit_both p2 chunk2 p1 chunk1 st.
Proof.
  intros Hwf H1 H2 Hr1 Hr2 Hne.
  destruct Hwf as [Hm Hcnt Hch Hfr].
  destruct (lookup_lt_is_Some_2 (gChannelBuffers st) (Z.to_nat c1)) as [row1 Hrow1].
  { rewrite Hch. unfold MAX_CHANNELS in *. lia. }
  destruct (lookup_lt_is_Some_2 (gChannelBuffers st) (Z.to_nat c2)) as [row2 Hrow2].
  { rewrite Hch. unfold MAX_CHANNELS in *. lia. }
  assert (wf st) as Hwf by done.
  rewrite (deposit_both_mapped p1 p2 c1 c2 chunk1 chunk2 st row1 row2) by done.
  rewrite (deposit_both_mapped p2 p1 c2 c1 chunk2 chunk1 st row2 row1) by done.
  split; [by eexists|].
  by rewrite (list_insert_insert_ne _ (Z.to_nat c1) (Z.to_nat c2)) by lia.
Qed.

(** X17: a deposit of zero frames changes nothing.  In a state of the
    declared shape, [RouteAudioToChannel] with frame count 0 returns
    normally with the state as it was, for every process, routed or not,
    and every chunk, the empty one included. *)
Theorem RouteAudioToChannel_no_frames (p : Z) (chunk : list sample) (st : driver) :
  wf st →
  RouteAudioToChannel p chunk 0 st = Some (tt, st).
Proof.
  intros Hwf.
  destruct (lookup_channel p st) as [c|] eqn:Hc.
  - destruct (decide (0 ≤ c < MAX_CHANNELS)) as [Hrange|Hout].
    + destruct (RouteAudioToChannel_mapped p chunk 0 st c)
        as (row & Hrow & ->); [done|done|done|lia|unfold BUFFER_FRAMES; lia|].
      replace (Z.to_nat (Z.min 0 BUFFER_FRAMES)) with 0%nat by (unfold BUFFER_FRAMES; lia).
      rewrite take_0, drop_0. cbn [app]. rewrite list_insert_id by done.
      by destruct st.
    + apply RouteAudioToChannel_dropped.
      intros (c' & Hc' & Hr). rewrite Hc in Hc'. by injection Hc' as <-.
  - apply RouteAudioToChannel_dropped. intros (c' & Hc' & _). by rewrite Hc in Hc'.
Qed.

(** * Lookups in reachable states *)

Lemma run_op_active_flags o st st' :
  wf st → run_op o st = Some st' → active_flags st → active_flags st'.
Proof.
  intros Hwf Hrun Hfl. unfold active_flags in *.
  destruct o as [p ch|p|p samples n|n output]; simpl in Hrun.
  - injection Hrun as <-. rewrite MapPIDToChannel_entries by done.
    destruct (list_find _ _) as [[i m]|].
    + apply Forall_alter; [done|]. intros; by right.
    + case_bool_decide; [|done]. apply Forall_app. split; [done|].
      apply Forall_singleton. by right.
  - injection Hrun as <-. rewrite UnmapPID_entries.
    destruct (list_find _ _) as [[i m]|]; [|done].
    apply Forall_alter; [done|]. intros; by left.
  - destruct (RouteAudioToChannel p samples n st) as [[[] st'']|] eqn:Hroute; [|done].
    injection Hrun as <-. by rewrite (RouteAudioToChannel_entries _ _ _ _ _ Hroute).
  - destruct (PlugIn_DoIOOperation n output st); [|done]. by injection Hrun as <-.
Qed.

Lemma reachable_active_flags st : reachable st → active_flags st.
Proof.
  induction 1 as [|st o st' Hreach IH Hrun].
  - unfold active_flags. rewrite init_entries. constructor.
  - eapply run_op_active_flags; [|done..]. by apply reachable_inv.
Qed.

(** X11: what a lookup finds.  In every reachable state the lookup of a
    process gives channel c exactly when a slot in use holds that process
    with channel c and the active flag 1; it gives nothing exactly when no
    slot in use holds the process with the flag 1. *)
Theorem lookup_channel_reachable (p c : Z) (st : driver) :
  reachable st →
  (lookup_channel p st = Some c ↔ mkPIDMapping p c 1 ∈ entries st) ∧
  (lookup_channel p st = None ↔ ∀ c', mkPIDMapping p c' 1 ∉ entries st).
Proof.
  intros Hreach. destruct (reachable_inv st Hreach) as [Hwf Hu].
  pose proof (reachable_active_flags st Hreach) as Hfl.
  unfold active_flags, unique_pids in *.
  assert (Hfound : ∀ c', lookup_channel p st = Some c' → mkPIDMapping p c' 1 ∈ entries st).
  { unfold lookup_channel. intros c' Hl.
    destruct (list_find _ _) as [[i m]|] eqn:Hfind; [|done].
    injection Hl as <-. apply list_find_Some in Hfind as (Hi & [Hp Ha] & _).
    pose proof (Forall_lookup_1 _ _ _ _ Hfl Hi) as Hm. simpl in Hm.
    apply list_elem_of_lookup. exists i. rewrite Hi. f_equal.
    destruct m as [q ch a]. simpl in *. f_equal; lia. }
  assert (Hin : ∀ c', mkPIDMapping p c' 1 ∈ entries st → lookup_channel p st = Some c').
  { intros c' Hm. unfold lookup_channel.
    destruct (list_find_elem_of (λ m, pid m = p ∧ active m ≠ 0) _ _ Hm)
      as [[i m] Hfind]; [done|].
    rewrite Hfind. simpl. f_equal.
    apply list_find_Some in Hfind as (Hi & [Hp _] & _).
    apply list_elem_of_lookup in Hm as [j Hj].
    assert (i = j) as ->.
    { eapply (NoDup_lookup _ _ _ p Hu); rewrite list_lookup_fmap.
      - by rewrite Hi; simpl; rewrite Hp.
      - by rewrite Hj. }
    rewrite Hi in Hj. by injection Hj as ->. }
  split.
  - split; [apply Hfound|apply Hin].
  - split.
    + intros Hnone c' Hm. apply Hin in Hm. congruence.
    + intros Hno. destruct (lookup_channel p st) as [c'|] eqn:Hl; [|done].
      destruct (Hno c'). by apply Hfound.
Qed.

(** * The plugin entry point and the client callback *)

(** X12: [AudioDriverPlugInOpen] with the plugin type UUID returns the
    driver interface, zeroes every channel buffer and every slot, and
    keeps the slot count: the slots in use all hold process 0, channel 0,
    inactive, so every process is unrouted, and with two or more slots in
    use process 0 has several slots.  With any other UUID it returns a
    null pointer and changes nothing. *)
Theorem AudioDriverPlugInOpen_clears (st : driver) :
  wf st →
  (AudioDriverPlugInOpen kAudioServerPlugInTypeUUID st).1 = gAudioServerPlugInDriverRef ∧
  wf (AudioDriverPlugInOpen kAudioServerPlugInTypeUUID st).2 ∧
  gMappingCount (AudioDriverPlugInOpen kAudioServerPlugInTypeUUID st).2 = gMappingCount st ∧
  entries (AudioDriverPlugInOpen kAudioServerPlugInTypeUUID st).2
    = replicate (Z.to_nat (gMappingCount st)) (mkPIDMapping 0 0 0) ∧
  (∀ p, lookup_channel p (AudioDriverPlugInOpen kAudioServerPlugInTypeUUID st).2 = None) ∧
  gChannelBuffers (AudioDriverPlugInOpen kAudioServerPlugInTypeUUID st).2
    = gChannelBuffers init ∧
  (2 ≤ gMappingCount st →
     ¬ unique_pids (AudioDriverPlugInOpen kAudioServerPlugInTypeUUID st).2) ∧
  (∀ u, u ≠ kAudioServerPlugInTypeUUID → AudioDriverPlugInOpen u st = (NULL, st)).
Proof.
  intros Hwf. pose proof (AudioDriverPlugInOpen_entries st Hwf) as Hent.
  split_and!.
  - unfold AudioDriverPlugInOpen. by rewrite bool_decide_eq_false_2 by (by intros []).
  - by apply AudioDriverPlugInOpen_wf.
  - apply AudioDriverPlugInOpen_count.
  - done.
  - intros p. by apply AudioDriverPlugInOpen_lookup.
  - unfold AudioDriverPlugInOpen. by rewrite bool_decide_eq_false_2 by (by intros []).
  - intros Hc. unfold unique_pids. rewrite Hent, fmap_replicate.
    destruct (Z.to_nat (gMappingCount st)) as [|[|k]] eqn:Hk; [lia..|].
    simpl. rewrite NoDup_cons. intros [Hnin _]. apply Hnin. left.
  - intros u Hu. unfold AudioDriverPlugInOpen. by rewrite bool_decide_eq_true_2.
Qed.

(** X13: the slots in use before [AudioDriverPlugInOpen] are lost as
    capacity.  After it no process but process 0 has a slot: registering
    such a process takes a new slot when one is free, and is dropped when
    all MAX_PID_MAPPINGS slots were in use before the call, whichever
    processes held them. *)
Theorem AudioDriverPlugInOpen_loses_slots (p ch : Z) (st : driver) :
  wf st →
  p ≠ 0 →
  ¬ has_slot p (AudioDriverPlugInOpen kAudioServerPlugInTypeUUID st).2 ∧
  (gMappingCount st < MAX_PID_MAPPINGS →
     gMappingCount
       (MapPIDToChannel p ch (AudioDriverPlugInOpen kAudioServerPlugInTypeUUID st).2).2
       = gMappingCount st + 1 ∧
     lookup_channel p
       (MapPIDToChannel p ch (AudioDriverPlugInOpen kAudioServerPlugInTypeUUID st).2).2
       = Some ch) ∧
  (gMappingCount st = MAX_PID_MAPPINGS →
     MapPIDToChannel p ch (AudioDriverPlugInOpen kAudioServerPlugInTypeUUID st).2
       = (tt, (AudioDriverPlugInOpen kAudioServerPlugInTypeUUID st).2) ∧
     lookup_channel p
       (MapPIDToChannel p ch (AudioDriverPlugInOpen kAudioServerPlugInTypeUUID st).2).2
       = None).
Proof.
  intros Hwf Hp.
  pose proof (AudioDriverPlugInOpen_wf st Hwf) as Hwf'.
  pose proof (AudioDriverPlugInOpen_count st) as Hc.
  pose proof (AudioDriverPlugInOpen_entries st Hwf) as Hent.
  pose proof (λ p, AudioDriverPlugInOpen_lookup st p Hwf) as Hlook.
  set (st' := (AudioDriverPlugInOpen kAudioServerPlugInTypeUUID st).2) in *.
  assert (¬ has_slot p st') as Hs.
  { rewrite has_slot_elem, Hent, fmap_replicate.
    by intros ->%elem_of_replicate_inv. }
  split_and!; [done| |].
  - intros Hroom. split.
    + unfold MapPIDToChannel.
      destruct (list_find _ _) as [[i m]|] eqn:Hfind.
      { destruct Hs. unfold has_slot. by rewrite Hfind. }
      rewrite bool_decide_eq_true_2 by lia. simpl. lia.
    + apply lookup_channel_MapPIDToChannel; [done|]. right. lia.
  - intros Hfull.
    assert (MapPIDToChannel p ch st' = (tt, st')) as Hdrop.
    { apply MapPIDToChannel_full. intros [?|?]; [done|lia]. }
    split; [done|]. rewrite Hdrop. apply Hlook.
Qed.

(** X14: [PlugIn_RemoveDeviceClient] always returns
    [kAudioHardwareNoError].  With client information, in a table where no
    process has two slots, it leaves unrouted the process whose pid is the
    client identifier converted from [UInt32] to [pid_t] (the identifier
    itself below 2^31, the identifier minus 2^32 from there on), so that
    its later deposits are dropped, and changes no channel buffer and no
    other process's routing; with a null pointer it changes nothing. *)
Theorem PlugIn_RemoveDeviceClient_unroutes (info : AudioServerPlugInClientInfo)
    (n : Z) (chunk : list sample) (st : driver) :
  unique_pids st →
  (PlugIn_RemoveDeviceClient (Some info) st).1 = kAudioHardwareNoError ∧
  (Z.of_N (mClientID info) < 2 ^ 31 →
     pid_t_of_UInt32 (mClientID info) = Z.of_N (mClientID info)) ∧
  (2 ^ 31 ≤ Z.of_N (mClientID info) < 2 ^ 32 →
     pid_t_of_UInt32 (mClientID info) = Z.of_N (mClientID info) - 2 ^ 32) ∧
  lookup_channel (pid_t_of_UInt32 (mClientID info))
    (PlugIn_RemoveDeviceClient (Some info) st).2 = None ∧
  RouteAudioToChannel (pid_t_of_UInt32 (mClientID info)) chunk n
    (PlugIn_RemoveDeviceClient (Some info) st).2
    = Some (tt, (PlugIn_RemoveDeviceClient (Some info) st).2) ∧
  (∀ q, q ≠ pid_t_of_UInt32 (mClientID info) →
     lookup_channel q (PlugIn_RemoveDeviceClient (Some info) st).2 = lookup_channel q st) ∧
  gChannelBuffers (PlugIn_RemoveDeviceClient (Some info) st).2 = gChannelBuffers st ∧
  PlugIn_RemoveDeviceClient None st = (kAudioHardwareNoError, st).
Proof.
  intros Hu.
  pose proof (lookup_channel_UnmapPID (pid_t_of_UInt32 (mClientID info)) st Hu) as Hnone.
  cbn [PlugIn_RemoveDeviceClient fst snd]. split_and!; [done| | |done| | | |done].
  - intros Hlt. unfold pid_t_of_UInt32.
    rewrite Z.mod_small by lia. by rewrite bool_decide_eq_true_2.
  - intros Hge. unfold pid_t_of_UInt32.
    rewrite Z.mod_small by lia. by rewrite bool_decide_eq_false_2 by lia.
  - apply RouteAudioToChannel_dropped. intros (c & Hc & _). congruence.
  - intros q Hq. by apply lookup_channel_UnmapPID_ne.
  - apply UnmapPID_buffers.
Qed.

End Driver.

Arguments driver : clear implicits.

(** * The driver at integer samples

    Concrete states and runs, with [Z] for the samples: the statements
    above evaluated on them. *)

Definition init_Z : driver Z := init 0.

(** 65 registrations of the processes 0 .. 64, process i on channel i mod 16. *)
Definition regs65 : list (Z * Z) :=
  (λ i : nat, (Z.of_nat i, Z.of_nat i `mod` 16)) <$> seq 0 65.

(** The table after the first 64 of them: every slot in use. *)
Definition full_table : driver Z := register_all (take 64 regs65) init_Z.

(** Process 7 mapped to channel 0. *)
Definition mapped_7 : driver Z := (MapPIDToChannel 7 0 init_Z).2.

(** ... after it deposited the chunk [5; 5]. *)
Definition deposited_7 : driver Z :=
  from_option snd mapped_7 (RouteAudioToChannel 7 [5; 5] 2 mapped_7).

(** Processes 7 and 8 mapped to the channels 0 and 1. *)
Definition mapped_7_8 : driver Z := (MapPIDToChannel 8 1 mapped_7).2.

(** A chunk longer than a channel buffer: 1030 samples, 1, 2, 3, ... *)
Definition long_chunk : list Z := (λ i : nat, Z.of_nat (S i)) <$> seq 0 1030.

(** The functions run on these states. *)

Example lookup_channel_mapped_7 : lookup_channel 7 mapped_7 = Some 0.
Proof. reflexivity. Qed.

Example lookup_channel_unmapped_7 : lookup_channel 7 (UnmapPID 7 mapped_7).2 = None.
Proof. reflexivity. Qed.

Example gMappingCount_full_table :
  gMappingCount full_table = 64 ∧ gMappingCount (MapPIDToChannel 64 0 full_table).2 = 64.
Proof. split; vm_compute; reflexivity. Qed.

Example RouteAudioToChannel_init_5 :
  RouteAudioToChannel 5 [1; 2; 3] 3 init_Z = Some (tt, init_Z).
Proof. reflexivity. Qed.

Example RouteAudioToChannel_negative_frames :
  RouteAudioToChannel 7 [1; 2; 3] (-1) mapped_7 = None.
Proof. reflexivity. Qed.

Example PlugIn_DoIOOperation_deposited_7 :
  PlugIn_DoIOOperation 0 Z.add 2 (Some [9; 9; 9]) deposited_7
    = Some (kAudioHardwareNoError, Some [5; 5; 9]).
Proof. vm_compute. reflexivity. Qed.

Example PlugIn_DoIOOperation_two_channels :
  (deposit_both 7 [1; 2] 8 [10; 20; 30] mapped_7_8 ≫= λ r,
     PlugIn_DoIOOperation 0 Z.add 4 (Some [9; 9; 9; 9; 9]) r.2)
    = Some (kAudioHardwareNoError, Some [11; 22; 30; 0; 9]).
Proof. vm_compute. reflexivity. Qed.

Example PlugIn_DoIOOperation_short_buffer :
  PlugIn_DoIOOperation 0 Z.add 4 (Some [9; 9]) init_Z = None.
Proof. reflexivity. Qed.

Lemma MapPIDToChannel_capacity_witness :
  NoDup regs65.*1 ∧
  length regs65 = S (Z.to_nat MAX_PID_MAPPINGS) ∧
  lookup_channel 63 (register_all (take 64 regs65) init_Z) = Some 15 ∧
  lookup_channel 63 (register_all regs65 init_Z) = Some 15 ∧
  MapPIDToChannel 64 0 full_table = (tt, full_table) ∧
  register_all regs65 init_Z = full_table ∧
  lookup_channel 64 full_table = None.
Proof.
  assert (NoDup regs65.*1) as Hnd by compute_done.
  assert (length regs65 = S (Z.to_nat MAX_PID_MAPPINGS)) as Hlen by reflexivity.
  destruct (MapPIDToChannel_capacity 0 regs65 Hnd Hlen) as [Hfirst Hlast].
  split; [exact Hnd|]. split; [exact Hlen|].
  destruct (Hfirst 63%nat 63 15) as [H1 H2]; [compute_done|reflexivity|].
  destruct (Hlast 64 0) as (H3 & H4 & H5); [reflexivity|].
  repeat split; assumption.
Defined.

(** C1 as stated fails: on the 65th registration of the run [regs65]
    [MapPIDToChannel] returns the unit value of a void function and leaves
    the state as it was; no reading of what the calls return tells the
    first, successful call from the last one, so no TableFull reaches the
    caller. *)
Lemma MapPIDToChannel_full_is_silent :
  MapPIDToChannel 64 0 full_table = (tt, full_table) ∧
  ¬ ∃ report : unit → RegisterResult,
      report (MapPIDToChannel 0 0 init_Z).1 = RegisterOk ∧
      report (MapPIDToChannel 64 0 full_table).1 = TableFull.
Proof.
  split.
  - vm_compute. reflexivity.
  - intros (report & Hok & Hfull).
    destruct (MapPIDToChannel 0 0 init_Z).1, (MapPIDToChannel 64 0 full_table).1.
    congruence.
Qed.

Lemma PlugIn_DoIOOperation_mix_witness :
  wf deposited_7 ∧
  (frames_to_copy 2 ≤ length [9; 9; 9])%nat ∧
  PlugIn_DoIOOperation 0 Z.add 2 None deposited_7 = Some (kAudioHardwareNoError, None) ∧
  ∃ out',
    PlugIn_DoIOOperation 0 Z.add 2 (Some [9; 9; 9]) deposited_7
      = Some (kAudioHardwareNoError, Some out') ∧
    length out' = 3%nat ∧
    (∀ i, (i < frames_to_copy 2)%nat →
       out' !! i =
         Some (foldl (λ acc ch, acc + sample_at 0 (gChannelBuffers deposited_7) ch i)
                     0 (seq 0 (Z.to_nat MAX_CHANNELS)))) ∧
    (∀ i, (frames_to_copy 2 ≤ i)%nat → out' !! i = [9; 9; 9] !! i).
Proof.
  assert (wf deposited_7) as Hwf by compute_done.
  assert (frames_to_copy 2 ≤ length [9; 9; 9])%nat as Hout by compute_done.
  split; [exact Hwf|]. split; [exact Hout|].
  exact (PlugIn_DoIOOperation_mix 0 Z.add 2 [9; 9; 9] deposited_7 Hwf Hout).
Defined.

Lemma RouteAudioToChannel_short_chunk_witness :
  wf deposited_7 ∧
  lookup_channel 7 deposited_7 = Some 0 ∧
  0 ≤ 0 < MAX_CHANNELS ∧
  Z.of_nat (length [9]) < BUFFER_FRAMES ∧
  ∃ row st',
    gChannelBuffers deposited_7 !! Z.to_nat 0 = Some row ∧
    RouteAudioToChannel 7 [9] (Z.of_nat (length [9])) deposited_7 = Some (tt, st') ∧
    gChannelBuffers st' !! Z.to_nat 0 = Some ([9] ++ drop (length [9]) row) ∧
    (∀ i, (i < length [9])%nat → gChannelBuffers st' !! Z.to_nat 0 ≫= (.!! i) = [9] !! i) ∧
    (∀ i, (length [9] ≤ i)%nat → gChannelBuffers st' !! Z.to_nat 0 ≫= (.!! i) = row !! i) ∧
    (∀ c', c' ≠ Z.to_nat 0 → gChannelBuffers st' !! c' = gChannelBuffers deposited_7 !! c').
Proof.
  assert (wf deposited_7) as Hwf by compute_done.
  assert (lookup_channel 7 deposited_7 = Some 0) as Hc by compute_done.
  assert (0 ≤ 0 < MAX_CHANNELS) as Hr by compute_done.
  assert (Z.of_nat (length [9]) < BUFFER_FRAMES) as Hl by compute_done.
  split; [exact Hwf|]. split; [exact Hc|]. split; [exact Hr|]. split; [exact Hl|].
  exact (RouteAudioToChannel_short_chunk 7 0 [9] deposited_7 Hwf Hc Hr Hl).
Defined.

(** C3 as stated fails: process 7, mapped to channel 0, deposits [5; 5]
    and then the shorter chunk [9]; the second sample of the channel's
    buffer is still 5, not zero. *)
Lemma RouteAudioToChannel_keeps_tail :
  ∃ st1 st2,
    RouteAudioToChannel 7 [5; 5] 2 mapped_7 = Some (tt, st1) ∧
    RouteAudioToChannel 7 [9] 1 st1 = Some (tt, st2) ∧
    gChannelBuffers st2 !! 0%nat ≫= (.!! 1%nat) = Some 5 ∧
    gChannelBuffers st2 !! 0%nat ≠ Some ([9] ++ replicate 1023 0).
Proof.
  eexists _, _. split; [reflexivity|]. split; [reflexivity|].
  split; [vm_compute; reflexivity|].
  intros Heq. apply (f_equal (λ o, o ≫= (.!! 1%nat))) in Heq.
  vm_compute in Heq. discriminate Heq.
Qed.

Lemma MapPIDToChannel_twice_witness :
  wf mapped_7 ∧
  unique_pids mapped_7 ∧
  can_register 8 mapped_7 ∧
  active_entries 8 (MapPIDToChannel 8 2 (MapPIDToChannel 8 1 mapped_7).2).2
    = [mkPIDMapping 8 2 1] ∧
  lookup_channel 8 (MapPIDToChannel 8 2 (MapPIDToChannel 8 1 mapped_7).2).2 = Some 2.
Proof.
  assert (wf mapped_7) as Hwf by compute_done.
  assert (unique_pids mapped_7) as Hu by compute_done.
  assert (can_register 8 mapped_7) as Hcan by compute_done.
  split; [exact Hwf|]. split; [exact Hu|]. split; [exact Hcan|].
  exact (MapPIDToChannel_twice 8 1 2 mapped_7 Hwf Hu Hcan).
Defined.

(** C4 as stated fails from the full table: process 64 has no slot and no
    slot is free, both registrations are dropped and no active entry for
    it exists afterwards. *)
Lemma MapPIDToChannel_twice_full :
  wf full_table ∧
  unique_pids full_table ∧
  active_entries 64 (MapPIDToChannel 64 2 (MapPIDToChannel 64 1 full_table).2).2 = [] ∧
  lookup_channel 64 (MapPIDToChannel 64 2 (MapPIDToChannel 64 1 full_table).2).2 = None.
Proof. repeat split; compute_done. Qed.

Lemma RouteAudioToChannel_clamps_witness :
  wf mapped_7 ∧
  lookup_channel 7 mapped_7 = Some 0 ∧
  0 ≤ 0 < MAX_CHANNELS ∧
  1030 > BUFFER_FRAMES ∧
  BUFFER_FRAMES ≤ Z.of_nat (length long_chunk) ∧
  ∃ st',
    RouteAudioToChannel 7 long_chunk 1030 mapped_7 = Some (tt, st') ∧
    gChannelBuffers st' =
      <[Z.to_nat 0 := take (Z.to_nat BUFFER_FRAMES) long_chunk]> (gChannelBuffers mapped_7) ∧
    (∀ chunk' n', n' > BUFFER_FRAMES →
       take (Z.to_nat BUFFER_FRAMES) chunk' = take (Z.to_nat BUFFER_FRAMES) long_chunk →
       RouteAudioToChannel 7 chunk' n' mapped_7 = Some (tt, st')).
Proof.
  assert (wf mapped_7) as Hwf by compute_done.
  assert (lookup_channel 7 mapped_7 = Some 0) as Hc by compute_done.
  assert (0 ≤ 0 < MAX_CHANNELS) as Hr by compute_done.
  assert (1030 > BUFFER_FRAMES) as Hn by compute_done.
  assert (BUFFER_FRAMES ≤ Z.of_nat (length long_chunk)) as Hl by compute_done.
  split; [exact Hwf|]. split; [exact Hc|]. split; [exact Hr|].
  split; [exact Hn|]. split; [exact Hl|].
  exact (RouteAudioToChannel_clamps 7 0 1030 long_chunk mapped_7 Hwf Hc Hr Hn Hl).
Defined.

Lemma RouteAudioToChannel_unrouted_witness :
  (active_entries 5 mapped_7 = [] ∨
   ¬ has_slot 5 mapped_7 ∨
   (∃ st0, unique_pids st0 ∧ mapped_7 = (UnmapPID 5 st0).2)) ∧
  active_entries 5 mapped_7 = [] ∧
  RouteAudioToChannel 5 [1; 2; 3] 3 mapped_7 = Some (tt, mapped_7) ∧
  (∀ st' m out, RouteAudioToChannel 5 [1; 2; 3] 3 mapped_7 = Some (tt, st') →
     gChannelBuffers st' = gChannelBuffers mapped_7 ∧
     PlugIn_DoIOOperation 0 Z.add m out st' = PlugIn_DoIOOperation 0 Z.add m out mapped_7).
Proof.
  assert (active_entries 5 mapped_7 = [] ∨
          ¬ has_slot 5 mapped_7 ∨
          (∃ st0, unique_pids st0 ∧ mapped_7 = (UnmapPID 5 st0).2)) as Hcase.
  { right. left. compute_done. }
  split; [exact Hcase|].
  exact (RouteAudioToChannel_unrouted 0 Z.add 5 3 [1; 2; 3] mapped_7 Hcase).
Defined.

Lemma mix_two_deposits_witness :
  Equivalence (@eq Z) ∧
  (∀ x x' y y' : Z, x = x' → y = y' → x + y = x' + y') ∧
  (∀ x, 0 + x = x) ∧ (∀ x, x + 0 = x) ∧ (∀ x y, x + y = y + x) ∧
  wf mapped_7_8 ∧
  gChannelBuffers mapped_7_8 = gChannelBuffers init_Z ∧
  lookup_channel 7 mapped_7_8 = Some 0 ∧
  lookup_channel 8 mapped_7_8 = Some 1 ∧
  0 ≤ 0 < MAX_CHANNELS ∧
  0 ≤ 1 < MAX_CHANNELS ∧
  0 ≠ 1 ∧
  (frames_to_copy 4 ≤ length [9; 9; 9; 9])%nat ∧
  ∃ st' out',
    deposit_both 7 [1; 2] 8 [10; 20; 30] mapped_7_8 = Some (tt, st') ∧
    deposit_both 8 [10; 20; 30] 7 [1; 2] mapped_7_8 = Some (tt, st') ∧
    PlugIn_DoIOOperation 0 Z.add 4 (Some [9; 9; 9; 9]) st'
      = Some (kAudioHardwareNoError, Some out') ∧
    ∀ i, (i < frames_to_copy 4)%nat →
      ∃ x, out' !! i = Some x ∧ x = padded 0 [1; 2] i + padded 0 [10; 20; 30] i.
Proof.
  assert (∀ x x' y y' : Z, x = x' → y = y' → x + y = x' + y') as Hproper
    by (intros x x' y y' -> ->; reflexivity).
  assert (wf mapped_7_8) as Hwf by compute_done.
  assert (gChannelBuffers mapped_7_8 = gChannelBuffers init_Z) as Hz by reflexivity.
  assert (lookup_channel 7 mapped_7_8 = Some 0) as H7 by compute_done.
  assert (lookup_channel 8 mapped_7_8 = Some 1) as H8 by compute_done.
  assert (0 ≤ 0 < MAX_CHANNELS) as Hr0 by compute_done.
  assert (0 ≤ 1 < MAX_CHANNELS) as Hr1 by compute_done.
  assert (0 ≠ 1) as Hne by compute_done.
  assert (frames_to_copy 4 ≤ length [9; 9; 9; 9])%nat as Hout by compute_done.
  split; [exact eq_equivalence|]. split; [exact Hproper|].
  split; [exact Z.add_0_l|]. split; [exact Z.add_0_r|]. split; [exact Z.add_comm|].
  split; [exact Hwf|]. split; [exact Hz|]. split; [exact H7|]. split; [exact H8|].
  split; [exact Hr0|]. split; [exact Hr1|]. split; [exact Hne|]. split; [exact Hout|].
  exact (mix_two_deposits 0 Z.add eq eq_equivalence Hproper Z.add_0_l Z.add_0_r Z.add_comm
           7 8 0 1 [1; 2] [10; 20; 30] 4 [9; 9; 9; 9] mapped_7_8
           Hwf Hz H7 H8 Hr0 Hr1 Hne Hout).
Defined.

(** Process 7 mapped to channel 16, outside the bank, and process 8 to
    channel 1. *)
Definition mapped_7_outside : driver Z :=
  (MapPIDToChannel 8 1 (MapPIDToChannel 7 16 init_Z).2).2.

(** C7 as stated fails when one of the two distinct channels is outside
    the bank: process 7 is actively mapped to channel 16 and process 8 to
    channel 1, the bank is zero; the deposit of process 7 is dropped and the
    output, in either order of the deposits, is the chunk of process 8
    alone, not the sum of the two chunks. *)
Lemma mix_two_deposits_outside_bank :
  lookup_channel 7 mapped_7_outside = Some 16 ∧
  lookup_channel 8 mapped_7_outside = Some 1 ∧
  active_entries 7 mapped_7_outside = [mkPIDMapping 7 16 1] ∧
  16 ≠ 1 ∧
  gChannelBuffers mapped_7_outside = gChannelBuffers init_Z ∧
  (deposit_both 7 [1; 2] 8 [10; 20; 30] mapped_7_outside ≫= λ r,
     PlugIn_DoIOOperation 0 Z.add 4 (Some [9; 9; 9; 9]) r.2)
    = Some (kAudioHardwareNoError, Some [10; 20; 30; 0]) ∧
  (deposit_both 8 [10; 20; 30] 7 [1; 2] mapped_7_outside ≫= λ r,
     PlugIn_DoIOOperation 0 Z.add 4 (Some [9; 9; 9; 9]) r.2)
    = Some (kAudioHardwareNoError, Some [10; 20; 30; 0]) ∧
  (λ i : nat, padded 0 [1; 2] i + padded 0 [10; 20; 30] i) <$> seq 0 4 = [11; 22; 30; 0] ∧
  [10; 20; 30; 0] ≠ [11; 22; 30; 0].
Proof. repeat split; try (vm_compute; reflexivity); compute_done. Qed.

Lemma UnmapPID_keeps_buffers_witness :
  wf deposited_7 ∧
  (frames_to_copy 2 ≤ length [9; 9; 9])%nat ∧
  gChannelBuffers (UnmapPID 7 deposited_7).2 = gChannelBuffers deposited_7 ∧
  PlugIn_DoIOOperation 0 Z.add 2 (Some [9; 9; 9]) (UnmapPID 7 deposited_7).2 =
    PlugIn_DoIOOperation 0 Z.add 2 (Some [9; 9; 9]) deposited_7 ∧
  ∃ out',
    PlugIn_DoIOOperation 0 Z.add 2 (Some [9; 9; 9]) (UnmapPID 7 deposited_7).2 =
      Some (kAudioHardwareNoError, Some out') ∧
    ∀ i, (i < frames_to_copy 2)%nat →
      out' !! i = Some (mix_sum 0 Z.add (gChannelBuffers deposited_7) i).
Proof.
  assert (wf deposited_7) as Hwf by compute_done.
  assert (frames_to_copy 2 ≤ length [9; 9; 9])%nat as Hout by compute_done.
  split; [exact Hwf|]. split; [exact Hout|].
  exact (UnmapPID_keeps_buffers 0 Z.add 7 2 [9; 9; 9] deposited_7 Hwf Hout).
Defined.

Lemma reachable_deposited_7 : reachable 0 Z.add deposited_7.
Proof.
  apply (reachable_step 0 Z.add mapped_7 (OpDeposit 7 [5; 5] 2)).
  - apply (reachable_step 0 Z.add init_Z (OpRegister 7 0)).
    + apply reachable_init.
    + reflexivity.
  - vm_compute. reflexivity.
Defined.

Lemma reachable_full_table : reachable 0 Z.add full_table.
Proof. exact (register_all_reachable 0 Z.add _ _ (reachable_init 0 Z.add)). Defined.

Lemma reachable_unique_slots_witness :
  reachable 0 Z.add full_table ∧
  gMappingCount full_table = MAX_PID_MAPPINGS ∧
  has_slot 5 full_table ∧
  NoDup (pid <$> entries full_table) ∧
  (length (active_entries 5 full_table) ≤ 1)%nat ∧
  (lookup_channel 5 full_table = Some 5 ∧
   lookup_channel 5 (MapPIDToChannel 5 9 full_table).2 = Some 9 ∧
   gMappingCount (MapPIDToChannel 5 9 full_table).2 = gMappingCount full_table ∧
   pid <$> entries (MapPIDToChannel 5 9 full_table).2 = pid <$> entries full_table) ∧
  (lookup_channel 5 (UnmapPID 5 full_table).2 = None ∧
   has_slot 5 (UnmapPID 5 full_table).2 ∧
   lookup_channel 5 (MapPIDToChannel 5 9 (UnmapPID 5 full_table).2).2 = Some 9 ∧
   gMappingCount (MapPIDToChannel 5 9 (UnmapPID 5 full_table).2).2
     = gMappingCount full_table) ∧
  (can_register 7 init_Z ∧
   has_slot 7 (MapPIDToChannel 7 0 init_Z).2 ∧
   lookup_channel 7 (MapPIDToChannel 7 0 init_Z).2 = Some 0).
Proof.
  assert (gMappingCount full_table = MAX_PID_MAPPINGS) as Hfull by compute_done.
  assert (has_slot 5 full_table) as Hs by compute_done.
  assert (lookup_channel 5 full_table = Some 5) as Hl by compute_done.
  assert (can_register 7 init_Z) as Hcan by compute_done.
  destruct (reachable_unique_slots 0 Z.add full_table reachable_full_table)
    as (_ & Hnd & Hact & Hslot & _ & Hunmap & _).
  destruct (reachable_unique_slots 0 Z.add init_Z (reachable_init 0 Z.add))
    as (_ & _ & _ & _ & Hreg & _).
  destruct (Hslot 5 9 Hs) as (H1 & H2 & H3).
  destruct (Hunmap 5 9 Hs) as (_ & H4 & H5 & H6 & H7).
  destruct (Hreg 7 0 Hcan) as (_ & H8 & H9).
  split; [exact reachable_full_table|]. split; [exact Hfull|]. split; [exact Hs|].
  split; [exact Hnd|]. split; [exact (Hact 5)|].
  split; [exact (conj Hl (conj H1 (conj H2 H3)))|].
  split; [exact (conj H5 (conj H4 (conj H6 H7)))|].
  exact (conj Hcan (conj H8 H9)).
Defined.

Lemma RouteAudioToChannel_out_of_range_witness :
  wf init_Z ∧
  ¬ (0 ≤ 16 < MAX_CHANNELS) ∧
  (can_register 7 init_Z → lookup_channel 7 (MapPIDToChannel 7 16 init_Z).2 = Some 16) ∧
  RouteAudioToChannel 7 [1; 2] 2 (MapPIDToChannel 7 16 init_Z).2 =
    Some (tt, (MapPIDToChannel 7 16 init_Z).2) ∧
  (∀ st', lookup_channel 7 st' = Some 16 →
     RouteAudioToChannel 7 [1; 2] 2 st' = Some (tt, st')).
Proof.
  assert (wf init_Z) as Hwf by compute_done.
  assert (¬ (0 ≤ 16 < MAX_CHANNELS)) as Hout by compute_done.
  split; [exact Hwf|]. split; [exact Hout|].
  exact (RouteAudioToChannel_out_of_range 7 16 2 [1; 2] init_Z Hwf Hout).
Defined.

(** * Further runs at integer samples *)

(** The type UUID of audio server plugins,
    443ABAB8-E7B3-491A-B985-BEB9187030DB, as a number, and another UUID. *)
Definition plugin_type_uuid : N := 0x443ABAB8E7B3491AB985BEB9187030DB.
Definition other_uuid : N := 0.

(** The calls that unregister the processes 0 .. 63. *)
Definition pids64 : list Z := (λ i : nat, Z.of_nat i) <$> seq 0 64.

(** Process 9 mapped, like process 7, to channel 0. *)
Definition mapped_7_9 : driver Z := (MapPIDToChannel 9 0 mapped_7).2.

Example AudioDriverPlugInOpen_full_table :
  gMappingCount (AudioDriverPlugInOpen 0 plugin_type_uuid plugin_type_uuid full_table).2 = 64
  ∧ lookup_channel 3 (AudioDriverPlugInOpen 0 plugin_type_uuid plugin_type_uuid full_table).2
    = None
  ∧ AudioDriverPlugInOpen 0 plugin_type_uuid other_uuid full_table = (NULL, full_table).
Proof. repeat split; vm_compute; reflexivity. Qed.

Lemma UnmapPID_unroutes_witness :
  unique_pids mapped_7_8 ∧
  lookup_channel 7 (UnmapPID 7 mapped_7_8).2 = None ∧
  (∀ q, q ≠ 7 → lookup_channel q (UnmapPID 7 mapped_7_8).2 = lookup_channel q mapped_7_8) ∧
  gMappingCount (UnmapPID 7 mapped_7_8).2 = gMappingCount mapped_7_8 ∧
  pid <$> entries (UnmapPID 7 mapped_7_8).2 = pid <$> entries mapped_7_8.
Proof.
  assert (unique_pids mapped_7_8) as Hu by compute_done.
  split; [exact Hu|]. exact (UnmapPID_unroutes 7 mapped_7_8 Hu).
Defined.

Lemma MapPIDToChannel_frame_witness :
  wf mapped_7 ∧
  (∀ q, q ≠ 8 → lookup_channel q (MapPIDToChannel 8 1 mapped_7).2 = lookup_channel q mapped_7) ∧
  gChannelBuffers (MapPIDToChannel 8 1 mapped_7).2 = gChannelBuffers mapped_7 ∧
  gMappingCount mapped_7 ≤ gMappingCount (MapPIDToChannel 8 1 mapped_7).2
    ≤ gMappingCount mapped_7 + 1.
Proof.
  assert (wf mapped_7) as Hwf by compute_done.
  split; [exact Hwf|]. exact (MapPIDToChannel_frame 8 1 mapped_7 Hwf).
Defined.

(** A run from [mapped_7] and the state it ends in. *)
Definition some_run : list (op (sample := Z)) :=
  [OpUnregister 7; OpRegister 8 1; OpDeposit 8 [5] 1; OpProduce 1 (Some [9])].

Definition after_some_run : driver Z :=
  default mapped_7 (run_ops 0 Z.add some_run mapped_7).

Lemma run_ops_never_compacts_witness :
  wf mapped_7 ∧
  run_ops 0 Z.add some_run mapped_7 = Some after_some_run ∧
  wf after_some_run ∧
  pid <$> entries mapped_7 `prefix_of` pid <$> entries after_some_run ∧
  gMappingCount mapped_7 ≤ gMappingCount after_some_run ∧
  (∀ p, has_slot p mapped_7 → has_slot p after_some_run).
Proof.
  assert (wf mapped_7) as Hwf by compute_done.
  assert (run_ops 0 Z.add some_run mapped_7 = Some after_some_run) as Hrun
    by (vm_compute; reflexivity).
  split; [exact Hwf|]. split; [exact Hrun|].
  exact (run_ops_never_compacts 0 Z.add some_run mapped_7 after_some_run Hwf Hrun).
Defined.

Lemma MapPIDToChannel_after_UnmapPID_witness :
  wf mapped_7 ∧
  unique_pids mapped_7 ∧
  can_register 7 mapped_7 ∧
  lookup_channel 7 (MapPIDToChannel 7 3 mapped_7).2 = Some 3 ∧
  lookup_channel 7 (UnmapPID 7 (MapPIDToChannel 7 3 mapped_7).2).2 = None ∧
  lookup_channel 7 (MapPIDToChannel 7 4 (UnmapPID 7 (MapPIDToChannel 7 3 mapped_7).2).2).2
    = Some 4 ∧
  active_entries 7 (MapPIDToChannel 7 4 (UnmapPID 7 (MapPIDToChannel 7 3 mapped_7).2).2).2
    = [mkPIDMapping 7 4 1] ∧
  gMappingCount (MapPIDToChannel 7 4 (UnmapPID 7 (MapPIDToChannel 7 3 mapped_7).2).2).2
    = gMappingCount (MapPIDToChannel 7 3 mapped_7).2.
Proof.
  assert (wf mapped_7) as Hwf by compute_done.
  assert (unique_pids mapped_7) as Hu by compute_done.
  assert (can_register 7 mapped_7) as Hcan by compute_done.
  split; [exact Hwf|]. split; [exact Hu|]. split; [exact Hcan|].
  exact (MapPIDToChannel_after_UnmapPID 7 3 4 mapped_7 Hwf Hu Hcan).
Defined.

Lemma UnmapPID_frees_no_slot_witness :
  gMappingCount full_table = MAX_PID_MAPPINGS ∧
  ¬ has_slot 64 full_table ∧
  MapPIDToChannel 64 0 (unmap_all pids64 full_table) = (tt, unmap_all pids64 full_table) ∧
  lookup_channel 64 (MapPIDToChannel 64 0 (unmap_all pids64 full_table)).2 = None.
Proof.
  assert (gMappingCount full_table = MAX_PID_MAPPINGS) as Hfull by compute_done.
  assert (¬ has_slot 64 full_table) as Hs by compute_done.
  split; [exact Hfull|]. split; [exact Hs|].
  exact (UnmapPID_frees_no_slot 64 0 pids64 full_table Hfull Hs).
Defined.

Lemma RouteAudioToChannel_defined_witness :
  wf mapped_7 ∧
  (is_Some (RouteAudioToChannel 7 [1; 2; 3] 5 mapped_7) ↔
   (∀ c, lookup_channel 7 mapped_7 = Some c → 0 ≤ c < MAX_CHANNELS →
      0 ≤ 5 ∧ Z.min 5 BUFFER_FRAMES ≤ Z.of_nat (length [1; 2; 3]))) ∧
  RouteAudioToChannel 7 [1; 2; 3] 5 mapped_7 = None.
Proof.
  assert (wf mapped_7) as Hwf by compute_done.
  split; [exact Hwf|].
  split; [exact (RouteAudioToChannel_defined 7 5 [1; 2; 3] mapped_7 Hwf)|reflexivity].
Defined.

Lemma PlugIn_DoIOOperation_defined_witness :
  wf deposited_7 ∧
  (is_Some (PlugIn_DoIOOperation 0 Z.add 2000 (Some [9; 9; 9]) deposited_7) ↔
   (frames_to_copy 2000 ≤ length [9; 9; 9])%nat) ∧
  PlugIn_DoIOOperation 0 Z.add 2000 (Some [9; 9; 9]) deposited_7 = None.
Proof.
  assert (wf deposited_7) as Hwf by compute_done.
  split; [exact Hwf|].
  split; [exact (PlugIn_DoIOOperation_defined 0 Z.add 2000 [9; 9; 9] deposited_7 Hwf)|].
  reflexivity.
Defined.

Lemma RouteAudioToChannel_last_wins_witness :
  wf mapped_7_9 ∧
  lookup_channel 7 mapped_7_9 = Some 0 ∧
  lookup_channel 9 mapped_7_9 = Some 0 ∧
  0 ≤ 0 < MAX_CHANNELS ∧
  (length [1; 2] ≤ length [10; 20; 30])%nat ∧
  is_Some (deposit_both 7 [1; 2] 9 [10; 20; 30] mapped_7_9) ∧
  deposit_both 7 [1; 2] 9 [10; 20; 30] mapped_7_9 =
    RouteAudioToChannel 9 [10; 20; 30] (Z.of_nat (length [10; 20; 30])) mapped_7_9.
Proof.
  assert (wf mapped_7_9) as Hwf by compute_done.
  assert (lookup_channel 7 mapped_7_9 = Some 0) as H7 by compute_done.
  assert (lookup_channel 9 mapped_7_9 = Some 0) as H9 by compute_done.
  assert (0 ≤ 0 < MAX_CHANNELS) as Hr by compute_done.
  assert (length [1; 2] ≤ length [10; 20; 30])%nat as Hle by compute_done.
  split; [exact Hwf|]. split; [exact H7|]. split; [exact H9|]. split; [exact Hr|].
  split; [exact Hle|].
  exact (RouteAudioToChannel_last_wins 7 9 0 [1; 2] [10; 20; 30] mapped_7_9
           Hwf H7 H9 Hr Hle).
Defined.

Lemma deposit_both_comm_witness :
  wf deposited_7 ∧
  lookup_channel 7 (MapPIDToChannel 8 1 deposited_7).2 = Some 0 ∧
  lookup_channel 8 (MapPIDToChannel 8 1 deposited_7).2 = Some 1 ∧
  wf (MapPIDToChannel 8 1 deposited_7).2 ∧
  0 ≤ 0 < MAX_CHANNELS ∧
  0 ≤ 1 < MAX_CHANNELS ∧
  0 ≠ 1 ∧
  is_Some (deposit_both 7 [1] 8 [10; 20; 30] (MapPIDToChannel 8 1 deposited_7).2) ∧
  deposit_both 7 [1] 8 [10; 20; 30] (MapPIDToChannel 8 1 deposited_7).2 =
    deposit_both 8 [10; 20; 30] 7 [1] (MapPIDToChannel 8 1 deposited_7).2.
Proof.
  assert (wf deposited_7) as Hwf0 by compute_done.
  assert (wf (MapPIDToChannel 8 1 deposited_7).2) as Hwf by compute_done.
  assert (lookup_channel 7 (MapPIDToChannel 8 1 deposited_7).2 = Some 0) as H7
    by compute_done.
  assert (lookup_channel 8 (MapPIDToChannel 8 1 deposited_7).2 = Some 1) as H8
    by compute_done.
  assert (0 ≤ 0 < MAX_CHANNELS) as Hr0 by compute_done.
  assert (0 ≤ 1 < MAX_CHANNELS) as Hr1 by compute_done.
  assert (0 ≠ 1) as Hne by compute_done.
  split; [exact Hwf0|]. split; [exact H7|]. split; [exact H8|]. split; [exact Hwf|].
  split; [exact Hr0|]. split; [exact Hr1|]. split; [exact Hne|].
  exact (deposit_both_comm 7 8 0 1 [1] [10; 20; 30] (MapPIDToChannel 8 1 deposited_7).2
           Hwf H7 H8 Hr0 Hr1 Hne).
Defined.

Lemma lookup_channel_reachable_witness :
  reachable 0 Z.add deposited_7 ∧
  (lookup_channel 7 deposited_7 = Some 0 ↔ mkPIDMapping 7 0 1 ∈ entries deposited_7) ∧
  (lookup_channel 7 deposited_7 = None ↔
   ∀ c', mkPIDMapping 7 c' 1 ∉ entries deposited_7).
Proof.
  split; [exact reachable_deposited_7|].
  exact (lookup_channel_reachable 0 Z.add 7 0 deposited_7 reachable_deposited_7).
Defined.

Lemma AudioDriverPlugInOpen_clears_witness :
  wf mapped_7_8 ∧
  (AudioDriverPlugInOpen 0 plugin_type_uuid plugin_type_uuid mapped_7_8).1
    = gAudioServerPlugInDriverRef ∧
  wf (AudioDriverPlugInOpen 0 plugin_type_uuid plugin_type_uuid mapped_7_8).2 ∧
  gMappingCount (AudioDriverPlugInOpen 0 plugin_type_uuid plugin_type_uuid mapped_7_8).2
    = gMappingCount mapped_7_8 ∧
  entries (AudioDriverPlugInOpen 0 plugin_type_uuid plugin_type_uuid mapped_7_8).2
    = replicate (Z.to_nat (gMappingCount mapped_7_8)) (mkPIDMapping 0 0 0) ∧
  (∀ p, lookup_channel p
          (AudioDriverPlugInOpen 0 plugin_type_uuid plugin_type_uuid mapped_7_8).2 = None) ∧
  gChannelBuffers (AudioDriverPlugInOpen 0 plugin_type_uuid plugin_type_uuid mapped_7_8).2
    = gChannelBuffers init_Z ∧
  (2 ≤ gMappingCount mapped_7_8 →
     ¬ unique_pids (AudioDriverPlugInOpen 0 plugin_type_uuid plugin_type_uuid mapped_7_8).2) ∧
  (∀ u, u ≠ plugin_type_uuid →
     AudioDriverPlugInOpen 0 plugin_type_uuid u mapped_7_8 = (NULL, mapped_7_8)).
Proof.
  assert (wf mapped_7_8) as Hwf by compute_done.
  split; [exact Hwf|].
  exact (AudioDriverPlugInOpen_clears 0 plugin_type_uuid mapped_7_8 Hwf).
Defined.

Lemma AudioDriverPlugInOpen_loses_slots_witness :
  wf full_table ∧
  7 ≠ 0 ∧
  ¬ has_slot 7 (AudioDriverPlugInOpen 0 plugin_type_uuid plugin_type_uuid full_table).2 ∧
  MapPIDToChannel 7 0 (AudioDriverPlugInOpen 0 plugin_type_uuid plugin_type_uuid full_table).2
    = (tt, (AudioDriverPlugInOpen 0 plugin_type_uuid plugin_type_uuid full_table).2) ∧
  lookup_channel 7
    (MapPIDToChannel 7 0
       (AudioDriverPlugInOpen 0 plugin_type_uuid plugin_type_uuid full_table).2).2 = None.
Proof.
  assert (wf full_table) as Hwf by compute_done.
  assert (7 ≠ 0) as Hp by compute_done.
  assert (gMappingCount full_table = MAX_PID_MAPPINGS) as Hfull by compute_done.
  destruct (AudioDriverPlugInOpen_loses_slots 0 plugin_type_uuid 7 0 full_table Hwf Hp)
    as (Hs & _ & Hdrop).
  destruct (Hdrop Hfull) as [H1 H2].
  split; [exact Hwf|]. split; [exact Hp|]. split; [exact Hs|]. split; [exact H1|exact H2].
Defined.

(** Process -1 mapped to channel 2, beside process 7. *)
Definition mapped_minus_1 : driver Z := (MapPIDToChannel (-1) 2 deposited_7).2.

Example PlugIn_RemoveDeviceClient_wraps :
  pid_t_of_UInt32 4294967295 = -1 ∧
  lookup_channel (-1) mapped_minus_1 = Some 2 ∧
  lookup_channel (-1)
    (PlugIn_RemoveDeviceClient (Some (mkClientInfo 4294967295)) mapped_minus_1).2 = None ∧
  lookup_channel 7
    (PlugIn_RemoveDeviceClient (Some (mkClientInfo 4294967295)) mapped_minus_1).2 = Some 0.
Proof. repeat split; vm_compute; reflexivity. Qed.

Lemma PlugIn_RemoveDeviceClient_unroutes_witness :
  unique_pids mapped_minus_1 ∧
  pid_t_of_UInt32 4294967295 = 4294967295 - 2 ^ 32 ∧
  (PlugIn_RemoveDeviceClient (Some (mkClientInfo 4294967295)) mapped_minus_1).1
    = kAudioHardwareNoError ∧
  lookup_channel (pid_t_of_UInt32 4294967295)
    (PlugIn_RemoveDeviceClient (Some (mkClientInfo 4294967295)) mapped_minus_1).2 = None ∧
  RouteAudioToChannel (pid_t_of_UInt32 4294967295) [1; 2] 2
    (PlugIn_RemoveDeviceClient (Some (mkClientInfo 4294967295)) mapped_minus_1).2
    = Some (tt, (PlugIn_RemoveDeviceClient (Some (mkClientInfo 4294967295)) mapped_minus_1).2) ∧
  lookup_channel 7
    (PlugIn_RemoveDeviceClient (Some (mkClientInfo 4294967295)) mapped_minus_1).2
    = lookup_channel 7 mapped_minus_1 ∧
  gChannelBuffers (PlugIn_RemoveDeviceClient (Some (mkClientInfo 4294967295)) mapped_minus_1).2
    = gChannelBuffers mapped_minus_1.
Proof.
  assert (unique_pids mapped_minus_1) as Hu by compute_done.
  assert (2 ^ 31 ≤ Z.of_N 4294967295 < 2 ^ 32) as Hrange by compute_done.
  assert (7 ≠ pid_t_of_UInt32 4294967295) as Hne by compute_done.
  destruct (PlugIn_RemoveDeviceClient_unroutes (mkClientInfo 4294967295) 2 [1; 2]
              mapped_minus_1 Hu) as (H1 & _ & Hwrap & H2 & H3 & H4 & H5 & _).
  split; [exact Hu|]. split; [exact (Hwrap Hrange)|]. split; [exact H1|].
  split; [exact H2|]. split; [exact H3|]. split; [exact (H4 7 Hne)|exact H5].
Defined.

Lemma deposit_then_mix_witness :
  Equivalence (@eq Z) ∧
  (∀ x x' y y' : Z, x = x' → y = y' → x + y = x' + y') ∧
  (∀ x, 0 + x = x) ∧ (∀ x, x + 0 = x) ∧
  wf init_Z ∧
  gChannelBuffers init_Z = gChannelBuffers init_Z ∧
  can_register 7 init_Z ∧
  0 ≤ 3 < MAX_CHANNELS ∧
  (frames_to_copy 4 ≤ length [9; 9; 9; 9])%nat ∧
  ∃ st' out',
    RouteAudioToChannel 7 [1; 2] (Z.of_nat (length [1; 2])) (MapPIDToChannel 7 3 init_Z).2
      = Some (tt, st') ∧
    PlugIn_DoIOOperation 0 Z.add 4 (Some [9; 9; 9; 9]) st'
      = Some (kAudioHardwareNoError, Some out') ∧
    ∀ i, (i < frames_to_copy 4)%nat → ∃ x, out' !! i = Some x ∧ x = padded 0 [1; 2] i.
Proof.
  assert (∀ x x' y y' : Z, x = x' → y = y' → x + y = x' + y') as Hproper
    by (intros x x' y y' -> ->; reflexivity).
  assert (wf init_Z) as Hwf by compute_done.
  assert (gChannelBuffers init_Z = gChannelBuffers init_Z) as Hz by reflexivity.
  assert (can_register 7 init_Z) as Hcan by compute_done.
  assert (0 ≤ 3 < MAX_CHANNELS) as Hr by compute_done.
  assert (frames_to_copy 4 ≤ length [9; 9; 9; 9])%nat as Hout by compute_done.
  split; [exact eq_equivalence|]. split; [exact Hproper|].
  split; [exact Z.add_0_l|]. split; [exact Z.add_0_r|].
  split; [exact Hwf|]. split; [exact Hz|]. split; [exact Hcan|]. split; [exact Hr|].
  split; [exact Hout|].
  exact (deposit_then_mix 0 Z.add eq eq_equivalence Hproper Z.add_0_l Z.add_0_r
           7 3 [1; 2] 4 [9; 9; 9; 9] init_Z Hwf Hz Hcan Hr Hout).
Defined.

Lemma AudioDriverPlugInOpen_silence_witness :
  Equivalence (@eq Z) ∧
  (∀ x x' y y' : Z, x = x' → y = y' → x + y = x' + y') ∧
  (∀ x, x + 0 = x) ∧
  wf deposited_7 ∧
  (frames_to_copy 2 ≤ length [9; 9; 9])%nat ∧
  ∃ out',
    PlugIn_DoIOOperation 0 Z.add 2 (Some [9; 9; 9])
      (AudioDriverPlugInOpen 0 plugin_type_uuid plugin_type_uuid deposited_7).2
      = Some (kAudioHardwareNoError, Some out') ∧
    ∀ i, (i < frames_to_copy 2)%nat → ∃ x, out' !! i = Some x ∧ x = 0.
Proof.
  assert (∀ x x' y y' : Z, x = x' → y = y' → x + y = x' + y') as Hproper
    by (intros x x' y y' -> ->; reflexivity).
  assert (wf deposited_7) as Hwf by compute_done.
  assert (frames_to_copy 2 ≤ length [9; 9; 9])%nat as Hout by compute_done.
  split; [exact eq_equivalence|]. split; [exact Hproper|]. split; [exact Z.add_0_r|].
  split; [exact Hwf|]. split; [exact Hout|].
  exact (AudioDriverPlugInOpen_silence 0 Z.add plugin_type_uuid eq eq_equivalence Hproper
           Z.add_0_r 2 [9; 9; 9] deposited_7 Hwf Hout).
Defined.

Lemma RouteAudioToChannel_no_frames_witness :
  wf deposited_7 ∧
  RouteAudioToChannel 7 [1; 2; 3] 0 deposited_7 = Some (tt, deposited_7).
Proof.
  assert (wf deposited_7) as Hwf by compute_done.
  split; [exact Hwf|]. exact (RouteAudioToChannel_no_frames 7 [1; 2; 3] deposited_7 Hwf).
Defined.
